(** * Pointed: an owner handle ([Single]) and self-nullifying references ([Ref])

    A shallow embedding of [include/Pointed.h].  Objects live in an explicit
    store indexed by address; the intrusive chain of the header is kept as it
    is written there, as raw [last]/[next] addresses inside each [Ref] and a
    raw [top] address inside each [Single].  Address [0] is [nullptr]. *)

From stdpp Require Import gmap.

Local Open Scope N_scope.

(** ** Data model *)

(** [class Single]: the fields [T *pointer] and [mutable void *top]. *)
Module Single.
Record t : Type := mk { pointer : N; top : N }.
End Single.

(** [class Ref]: the fields [T *pointer], [const mutable void *last] and
    [const mutable void *next].  The static type parameter is erased, as the
    header itself does when it casts [void*] links back to [Ref<T>*]. *)
Module Ref.
Record t : Type := mk { pointer : N; last : N; next : N }.
End Ref.

(** The exceptions the header can throw. *)
Inductive exn : Type :=
| InvalidRefException
| bad_cast.

Section Pointed.

(** The class hierarchy is supplied by the client of the header: [ty] are
    the static types, [Obj] the heap objects, and [has_type o T] tells
    whether [dynamic_cast<T*>] succeeds on a pointer to [o]. *)
Context {ty Obj : Type} (has_type : Obj → ty → bool).

(** The store: heap objects made by [new], and the live [Single] and [Ref]
    objects, each at its address.  A destroyed object is absent. *)
Record state : Type := mkState {
  heap : gmap N Obj;
  singles : gmap N Single.t;
  refs : gmap N Ref.t
}.

Definition set_heap (f : gmap N Obj → gmap N Obj) (s : state) : state :=
  mkState (f (heap s)) (singles s) (refs s).
Definition set_singles (f : gmap N Single.t → gmap N Single.t) (s : state) : state :=
  mkState (heap s) (f (singles s)) (refs s).
Definition set_refs (f : gmap N Ref.t → gmap N Ref.t) (s : state) : state :=
  mkState (heap s) (singles s) (f (refs s)).

(** How a call ends: it returns, it throws, it touches an object that is
    not there (undefined behaviour in C++), or the model's recursion budget
    is used up. *)
Inductive outcome (A : Type) : Type :=
| Ret (a : A) (s : state)
| Throw (e : exn) (s : state)
| Undefined
| OutOfFuel.
Global Arguments Ret {A} a s.
Global Arguments Throw {A} e s.
Global Arguments Undefined {A}.
Global Arguments OutOfFuel {A}.

Definition M (A : Type) : Type := state → outcome A.

Definition ret {A} (a : A) : M A := λ s, Ret a s.
Definition throw {A} (e : exn) : M A := λ s, Throw e s.
Definition bind {A B} (m : M A) (k : A → M B) : M B := λ s,
  match m s with
  | Ret a s' => k a s'
  | Throw e s' => Throw e s'
  | Undefined => Undefined
  | OutOfFuel => OutOfFuel
  end.

Notation "x <- m ;; k" := (bind m (λ x, k))
  (at level 20, m at level 99, k at level 200, only parsing).
Notation "m ;; k" := (bind m (λ _, k))
  (at level 100, k at level 200, only parsing, right associativity).

(** [if (c) stmt;] *)
Definition when (c : bool) (m : M unit) : M unit := if c then m else ret tt.

(** *** Field access *)

Definition get_ref (a : N) : M Ref.t := λ s,
  match refs s !! a with Some r => Ret r s | None => Undefined end.
Definition put_ref (a : N) (r : Ref.t) : M unit := λ s,
  Ret tt (set_refs <[a := r]> s).

Definition rd_pointer (a : N) : M N := r <- get_ref a ;; ret (Ref.pointer r).
Definition rd_last (a : N) : M N := r <- get_ref a ;; ret (Ref.last r).
Definition rd_next (a : N) : M N := r <- get_ref a ;; ret (Ref.next r).
Definition wr_pointer (a v : N) : M unit :=
  r <- get_ref a ;; put_ref a (Ref.mk v (Ref.last r) (Ref.next r)).
Definition wr_last (a v : N) : M unit :=
  r <- get_ref a ;; put_ref a (Ref.mk (Ref.pointer r) v (Ref.next r)).
Definition wr_next (a v : N) : M unit :=
  r <- get_ref a ;; put_ref a (Ref.mk (Ref.pointer r) (Ref.last r) v).

Definition get_single (a : N) : M Single.t := λ s,
  match singles s !! a with Some o => Ret o s | None => Undefined end.
Definition put_single (a : N) (o : Single.t) : M unit := λ s,
  Ret tt (set_singles <[a := o]> s).

Definition rd_Spointer (a : N) : M N := o <- get_single a ;; ret (Single.pointer o).
Definition rd_top (a : N) : M N := o <- get_single a ;; ret (Single.top o).
Definition wr_Spointer (a v : N) : M unit :=
  o <- get_single a ;; put_single a (Single.mk v (Single.top o)).
Definition wr_top (a v : N) : M unit :=
  o <- get_single a ;; put_single a (Single.mk (Single.pointer o) v).

(** *** The language primitives the header uses *)

(** [new T(...)] in the runs where it succeeds: the allocator hands out
    address [p] and the constructor of [T] builds [o] there.  A failing
    allocation ([std::bad_alloc]) and a throwing constructor of [T] are
    outside the model, so nothing below says that [new], or [my], which
    calls it, cannot throw. *)
Definition new_obj (p : N) (o : Obj) : M N := λ s,
  Ret p (set_heap <[p := o]> s).

(** [delete p]: nothing on [nullptr]; freeing what is not allocated is
    undefined. *)
Definition delete_obj (p : N) : M unit :=
  if p =? 0 then ret tt
  else λ s, match heap s !! p with
            | Some _ => Ret tt (set_heap (delete p) s)
            | None => Undefined
            end.

(** [dynamic_cast<T*>(p)]: [nullptr] stays [nullptr]; otherwise the
    dynamic type of the object decides.  On pointers it never throws. *)
Definition dynamic_cast (T : ty) (p : N) : M N :=
  if p =? 0 then ret 0
  else λ s, match heap s !! p with
            | Some o => Ret (if has_type o T then p else 0) s
            | None => Undefined
            end.

(** Storage of a [Ref] / [Single] coming into and going out of life. *)
Definition free_ref (a : N) : M unit := λ s, Ret tt (set_refs (delete a) s).
Definition free_single (a : N) : M unit := λ s, Ret tt (set_singles (delete a) s).

(** ** class Ref *)

(** [Ref() { }] with the default member initialisers. *)
Definition Ref_ctor (this : N) : M unit := put_ref this (Ref.mk 0 0 0).

(** [void nullify()] *)
Definition nullify (this : N) : M unit :=
  wr_pointer this 0 ;;
  wr_last this 0 ;;
  wr_next this 0.

(** [void invalidate() { nullify(); if (next) next->invalidate(); }], the
    link being cast back to a [Ref] first. *)
Fixpoint invalidate (fuel : nat) (this : N) : M unit :=
  match fuel with
  | O => λ _, OutOfFuel
  | S fuel' =>
      nullify this ;;
      n <- rd_next this ;;
      when (negb (n =? 0)) (n <- rd_next this ;; invalidate fuel' n)
  end.

(** [void delink()] *)
Definition delink (this : N) : M unit :=
  (n <- rd_next this ;;
   when (negb (n =? 0))
     (n <- rd_next this ;; l <- rd_last this ;; wr_last n l)) ;;
  l <- rd_last this ;;
  when (negb (l =? 0))
    (l <- rd_last this ;; n <- rd_next this ;; wr_next l n).

(** [~Ref() { delink(); }] *)
Definition Ref_dtor (this : N) : M unit :=
  delink this ;;
  free_ref this.

(** [Ref<T>& operator=(const Ref<T>& other)] *)
Definition Ref_assign (this other : N) : M N :=
  delink this ;;
  nullify this ;;
  p <- rd_pointer other ;; wr_pointer this p ;;
  wr_next this other ;;
  ol <- rd_last other ;;
  when (negb (ol =? 0))
    (ol <- rd_last other ;; wr_last this ol ;;
     l <- rd_last this ;; wr_next l this) ;;
  wr_last other this ;;
  ret this.

(** [Ref<T>& operator=(const Single<T>& single)] *)
Definition Ref_assign_Single (this single : N) : M N :=
  delink this ;;
  nullify this ;;
  p <- rd_Spointer single ;; wr_pointer this p ;;
  t <- rd_top single ;;
  when (negb (t =? 0))
    (t <- rd_top single ;; wr_next this t ;;
     t <- rd_top single ;; wr_last t this) ;;
  wr_top single this ;;
  ret this.

(** [Ref(const Ref<T>& other) { operator=(other); }] *)
Definition Ref_copy (this other : N) : M unit :=
  Ref_ctor this ;;
  _ <- Ref_assign this other ;;
  ret tt.

(** [Ref(const Single<T>& single) { operator=(single); }] *)
Definition Ref_of_Single (this single : N) : M unit :=
  Ref_ctor this ;;
  _ <- Ref_assign_Single this single ;;
  ret tt.

(** [T* operator->()] *)
Definition Ref_arrow (this : N) : M N :=
  p <- rd_pointer this ;;
  if p =? 0 then throw InvalidRefException else ret p.

(** [T& operator*()]: the lvalue is given by the address of its referent. *)
Definition Ref_star (this : N) : M N :=
  p <- rd_pointer this ;;
  if p =? 0 then throw InvalidRefException else ret p.

(** [operator bool()] *)
Definition Ref_bool (this : N) : M bool :=
  p <- rd_pointer this ;;
  ret (negb (p =? 0)).

(** [Ref<T> NullRef()]; the result is built in the caller's slot [res]. *)
Definition NullRef (res : N) : M N :=
  Ref_ctor res ;;
  ret res.

(** [Ref<To> RefCast(const Ref<From>& ref)]; the local [result] is the
    returned object, built in the caller's slot [res]. *)
Definition RefCast (To : ty) (res ref : N) : M N :=
  p <- rd_pointer ref ;;
  pointerNew <- dynamic_cast To p ;;
  if negb (pointerNew =? 0) then
    Ref_ctor res ;;
    wr_pointer res pointerNew ;;
    wr_next res ref ;;
    rl <- rd_last ref ;;
    when (negb (rl =? 0))
      (rl <- rd_last ref ;; wr_last res rl ;;
       l <- rd_last res ;; wr_next l res) ;;
    wr_last ref res ;;
    ret res
  else
    NullRef res.

(** [RefCast] when the compiler does not build [result] in the caller's
    slot: [result] lives at [tmp], [return result;] copy-constructs the
    returned object at [res] from it (a [Ref] has no move constructor), and
    [result] is destroyed. *)
Definition RefCast_copied (To : ty) (tmp res ref : N) : M N :=
  _ <- RefCast To tmp ref ;;
  Ref_copy res tmp ;;
  Ref_dtor tmp ;;
  ret res.

(** ** class Single *)

(** [explicit Single(T *toTakeOwnershipOf)] *)
Definition Single_ctor (this p : N) : M unit :=
  put_single this (Single.mk p 0).

(** [Single(Single<T> &&other) noexcept] *)
Definition Single_move (this other : N) : M unit :=
  p <- rd_Spointer other ;;
  t <- rd_top other ;;
  put_single this (Single.mk p t) ;;
  wr_Spointer other 0 ;;
  wr_top other 0.

(** [template<class O> Single(Single<O> &&other)].  When the constructor
    throws, the object under construction never comes to life and its
    storage is given back. *)
Definition Single_move_cast (T : ty) (this other : N) : M unit :=
  put_single this (Single.mk 0 0) ;;
  op <- rd_Spointer other ;;
  p <- dynamic_cast T op ;;
  wr_Spointer this p ;;
  p <- rd_Spointer this ;;
  if p =? 0 then
    free_single this ;;
    throw bad_cast
  else
    t <- rd_top other ;; wr_top this t ;;
    wr_Spointer other 0 ;;
    wr_top other 0.

(** [~Single() { delete pointer; if (top) top->invalidate(); }], [top]
    being cast back to a [Ref] first. *)
Definition Single_dtor (fuel : nat) (this : N) : M unit :=
  p <- rd_Spointer this ;; delete_obj p ;;
  t <- rd_top this ;;
  when (negb (t =? 0)) (t <- rd_top this ;; invalidate fuel t) ;;
  free_single this.

(** [Single<T> my(Args&&...)]: [new T(...)] at [p], owned by the [Single]
    at [this]. *)
Definition my (this p : N) (o : Obj) : M unit :=
  p <- new_obj p o ;;
  Single_ctor this p.

(** ** The rest of the header's interface *)

(** [bool Single::operator==(const Single<T>& other)] *)
Definition Single_eq (this other : N) : M bool :=
  p <- rd_Spointer this ;;
  q <- rd_Spointer other ;;
  ret (p =? q).

(** [bool Single::operator==(const Ref<T>& ref)] *)
Definition Single_eq_Ref (this ref : N) : M bool :=
  p <- rd_Spointer this ;;
  q <- rd_pointer ref ;;
  ret (p =? q).

(** [T *Single::operator->() { return pointer; }] *)
Definition Single_arrow (this : N) : M N := rd_Spointer this.

(** [T &Single::operator*() { return *pointer; }]: the lvalue is given by
    the address of its referent; no test is made. *)
Definition Single_star (this : N) : M N := rd_Spointer this.

(** [T &Single::self() { return operator*(); }] *)
Definition Single_self (this : N) : M N := Single_star this.

(** [bool Ref::operator==(const Ref<T>& other)] *)
Definition Ref_eq (this other : N) : M bool :=
  p <- rd_pointer this ;;
  q <- rd_pointer other ;;
  ret (p =? q).

(** [bool Ref::operator==(const Single<T>& single)] *)
Definition Ref_eq_Single (this single : N) : M bool :=
  p <- rd_pointer this ;;
  q <- rd_Spointer single ;;
  ret (p =? q).

(** [T& Ref::self() { return operator*(); }] *)
Definition Ref_self (this : N) : M N := Ref_star this.

(** [Ref<T> refer(const Single<T>& single)] and
    [Ref<T> refer(const Ref<T>& ref)].  Each returns a prvalue, which is
    constructed in place in the caller's object at [res]; a compiler that
    copies the returned temporary instead is not what is modelled here. *)
Definition refer_Single (res single : N) : M N :=
  Ref_of_Single res single ;;
  ret res.

Definition refer_Ref (res ref : N) : M N :=
  Ref_copy res ref ;;
  ret res.

(** Reading the object an lvalue designates; nothing can be read through a
    null or dangling address. *)
Definition load (a : N) : M Obj := λ s,
  match heap s !! a with Some x => Ret x s | None => Undefined end.

(** ** The demonstration program, [Demo.cpp]

    What the program writes to [std::cout], one event per line. *)
Inductive event : Type :=
| OwnedInt (x : Obj)
| Reference (x : Obj)
| StillAccessible (x : Obj)
| IsNull.

(** [void test()]: [myIntRef] is the global [Ref], [ownedInt] the local
    [Single], [p] where [new] puts the integer [twenty]; the local dies at
    the closing brace. *)
Definition test (fuel : nat) (myIntRef ownedInt p : N) (twenty : Obj)
    : M (list event) :=
  my ownedInt p twenty ;;
  a <- Single_star ownedInt ;; x <- load a ;;
  _ <- Ref_assign_Single myIntRef ownedInt ;;
  b <- Ref_star myIntRef ;; y <- load b ;;
  Single_dtor fuel ownedInt ;;
  ret [OwnedInt x; Reference y].

(** [int main()] *)
Definition main (fuel : nat) (myIntRef ownedInt p : N) (twenty : Obj)
    : M (list event) :=
  out <- test fuel myIntRef ownedInt p twenty ;;
  ok <- Ref_bool myIntRef ;;
  if ok then
    b <- Ref_star myIntRef ;; z <- load b ;;
    ret (out ++ [StillAccessible z])
  else
    ret (out ++ [IsNull]).

(** The whole run: the global is default-constructed before [main] and
    destroyed after it. *)
Definition program (fuel : nat) (myIntRef ownedInt p : N) (twenty : Obj)
    : M (list event) :=
  Ref_ctor myIntRef ;;
  out <- main fuel myIntRef ownedInt p twenty ;;
  Ref_dtor myIntRef ;;
  ret out.

End Pointed.

Arguments state : clear implicits.
Arguments outcome : clear implicits.
Arguments M : clear implicits.

Notation "x <- m ;; k" := (bind m (λ x, k))
  (at level 20, m at level 99, k at level 200, only parsing).
Notation "m ;; k" := (bind m (λ _, k))
  (at level 100, k at level 200, only parsing, right associativity).

(** ** The net effect of [delink]

    [delink] on a [Ref] whose record is [r] writes the [last] field of its
    successor and the [next] field of its predecessor, where there is one.
    [unlinked r] is that update of the table of [Ref]s; [delink_live] below
    proves that this is what the code does. *)

Definition set_last (v : N) (x : Ref.t) : Ref.t :=
  Ref.mk (Ref.pointer x) v (Ref.next x).

Definition set_next (v : N) (x : Ref.t) : Ref.t :=
  Ref.mk (Ref.pointer x) (Ref.last x) v.

Definition unlinked (r : Ref.t) (m : gmap N Ref.t) : gmap N Ref.t :=
  let m1 :=
    if Ref.next r =? 0 then m
    else alter (set_last (Ref.last r)) (Ref.next r) m in
  if Ref.last r =? 0 then m1
  else alter (set_next (Ref.next r)) (Ref.last r) m1.

(** What binding the [Ref] at [this] to an owner with value [p] and head
    [t] writes: the [Ref] gets the value and the old head as successor, and
    the old head, where there is one, gets it as predecessor. *)
Definition bound (this p t : N) (m : gmap N Ref.t) : gmap N Ref.t :=
  let m1 := <[this := Ref.mk p 0 t]> m in
  if t =? 0 then m1 else alter (set_last this) t m1.

(** What copying the [Ref] with record [ro] at [other] into a new [Ref] at
    [this] writes: the copy goes between the source and its predecessor. *)
Definition copied (this other : N) (ro : Ref.t) (m : gmap N Ref.t)
    : gmap N Ref.t :=
  let m1 := <[this := Ref.mk (Ref.pointer ro) (Ref.last ro) other]> m in
  let m2 :=
    if Ref.last ro =? 0 then m1
    else alter (set_next this) (Ref.last ro) m1 in
  alter (set_last this) other m2.

(** The neighbours a [Ref] record names are live (or null). *)
Definition neighbours_live (r : Ref.t) (m : gmap N Ref.t) : Prop :=
  (Ref.next r ≠ 0 → is_Some (m !! Ref.next r)) ∧
  (Ref.last r ≠ 0 → is_Some (m !! Ref.last r)).

(** A [Ref] is linked when it names a neighbour or some [Single] names it
    as the head of its chain. *)
Definition is_top {Obj} (s : state Obj) (a : N) : bool :=
  existsb (λ ao, Single.top (snd ao) =? a) (map_to_list (singles s)).

Definition linked {Obj} (s : state Obj) (a : N) : bool :=
  match refs s !! a with
  | Some r => negb (Ref.last r =? 0) || negb (Ref.next r =? 0) || is_top s a
  | None => false
  end.

(** A computation that throws on no store. *)
Definition nothrow {Obj A} (m : M Obj A) : Prop :=
  ∀ s e s', m s ≠ Throw e s'.

(** ** A client: the hierarchy of the header's intended use

    [Derived] derives from [Base]; [Unrelated] stands alone.  An object
    carries its dynamic class and an integer payload. *)
Module Demo.

Inductive cls : Type := Base | Derived | Unrelated.

Definition obj : Type := cls * Z.

Definition is_a (o : obj) (T : cls) : bool :=
  match fst o, T with
  | Base, Base | Derived, Derived | Unrelated, Unrelated => true
  | Derived, Base => true
  | _, _ => false
  end.

Definition empty_state : state obj := mkState ∅ ∅ ∅.

Definition run {A} (m : M obj A) : outcome obj A := m empty_state.

(** What a caller sees of a call: the value returned or the exception. *)
Definition value {A} (o : outcome obj A) : option (A + exn) :=
  match o with
  | Ret x _ => Some (inl x)
  | Throw e _ => Some (inr e)
  | _ => None
  end.

(** The store a call leaves behind. *)
Definition final {A} (o : outcome obj A) : option (state obj) :=
  match o with
  | Ret _ s | Throw _ s => Some s
  | _ => None
  end.

Definition ref_at {A} (a : N) (o : outcome obj A) : option Ref.t :=
  s ← final o; refs s !! a.

Definition single_at {A} (a : N) (o : outcome obj A) : option Single.t :=
  s ← final o; singles s !! a.

Definition obj_at {A} (p : N) (o : outcome obj A) : option obj :=
  s ← final o; heap s !! p.

Definition linked_at {A} (a : N) (o : outcome obj A) : option bool :=
  s ← final o; Some (linked s a).

(** Storage used by the scenarios: the owner at 100, a second owner at
    101, the owned object at 1000, references at 1, 2 and 3. *)

(** [auto owner = my<Base>(20);] *)
Definition with_owner : M obj unit := my 100 1000 (Base, 20%Z).

(** [auto owner = my<Derived>(20);] *)
Definition with_derived_owner : M obj unit := my 100 1000 (Derived, 20%Z).

(** [Ref r1(owner); Ref r2(owner);] and then the owner goes out of scope. *)
Definition two_refs_owner_dies (fuel : nat) : M obj unit :=
  with_owner ;;
  Ref_of_Single 1 100 ;;
  Ref_of_Single 2 100 ;;
  Single_dtor fuel 100.

(** [Ref r(owner); auto c = RefCast<Derived>(r);] and then the owner goes
    out of scope. *)
Definition cast_of_head_owner_dies (fuel : nat) : M obj unit :=
  with_derived_owner ;;
  Ref_of_Single 1 100 ;;
  _ <- RefCast is_a Derived 2 1 ;;
  Single_dtor fuel 100.

(** [Ref r1(owner); Ref r2(owner); auto c = RefCast<Derived>(r1);] and
    then the owner goes out of scope: here the source is not the head. *)
Definition cast_of_inner_owner_dies (fuel : nat) : M obj unit :=
  with_derived_owner ;;
  Ref_of_Single 1 100 ;;
  Ref_of_Single 2 100 ;;
  _ <- RefCast is_a Derived 3 1 ;;
  Single_dtor fuel 100.

(** [Ref a; Ref b(a);] *)
Definition copy_of_empty : M obj unit :=
  Ref_ctor 1 ;;
  Ref_copy 2 1.

(** [Ref a; Ref b; b = a;] *)
Definition assign_of_empty : M obj unit :=
  Ref_ctor 1 ;;
  Ref_ctor 2 ;;
  _ <- Ref_assign 2 1 ;;
  ret tt.

(** [Single<Base> owner2(std::move(owner)); Ref r(owner);]: a reference is
    bound to the moved-from owner. *)
Definition bind_to_emptied_owner : M obj unit :=
  with_owner ;;
  Single_move 101 100 ;;
  Ref_of_Single 1 100.

(** [Ref r1(owner); { Ref r2(owner); }]: of two references bound to one
    owner the later one, which is the head of the chain, dies. *)
Definition two_refs_head_dies : M obj unit :=
  with_owner ;;
  Ref_of_Single 1 100 ;;
  Ref_of_Single 2 100 ;;
  Ref_dtor 2.

(** [{ Ref r(owner); }]: the only reference, which is the head, dies
    before the owner. *)
Definition head_ref_dies : M obj unit :=
  with_owner ;;
  Ref_of_Single 1 100 ;;
  Ref_dtor 1.

(** Stores for instantiating the general statements: an owner at 100 of a
    [Base] object at 1000 with the chain 2, 1 (head first). *)
Definition chain_of_two : state obj :=
  mkState {[1000 := (Base, 20%Z)]}
          {[100 := Single.mk 1000 2]}
          {[1 := Ref.mk 1000 2 0; 2 := Ref.mk 1000 0 1]}.


End Demo.

(** * Properties *)

Section Facts.

Context {ty Obj : Type} (has_type : Obj → ty → bool).
Implicit Types (s : state Obj) (r : Ref.t) (o : Single.t) (a this other : N).

(** ** Running a sequence *)

Lemma bind_Ret {A B} (m : M Obj A) (k : A → M Obj B) s x s' :
  m s = Ret x s' → bind m k s = k x s'.
Proof. unfold bind. by intros ->. Qed.

(** ** Field access on live objects *)

Lemma get_ref_live s a r : refs s !! a = Some r → get_ref a s = Ret r s.
Proof. intros H. unfold get_ref. by rewrite H. Qed.

Lemma rd_pointer_live s a r :
  refs s !! a = Some r → rd_pointer a s = Ret (Ref.pointer r) s.
Proof. intros H. unfold rd_pointer, bind. by rewrite (get_ref_live _ _ _ H). Qed.

Lemma rd_last_live s a r :
  refs s !! a = Some r → rd_last a s = Ret (Ref.last r) s.
Proof. intros H. unfold rd_last, bind. by rewrite (get_ref_live _ _ _ H). Qed.

Lemma rd_next_live s a r :
  refs s !! a = Some r → rd_next a s = Ret (Ref.next r) s.
Proof. intros H. unfold rd_next, bind. by rewrite (get_ref_live _ _ _ H). Qed.

Lemma wr_pointer_live s a r v :
  refs s !! a = Some r →
  wr_pointer a v s = Ret tt (set_refs <[a := Ref.mk v (Ref.last r) (Ref.next r)]> s).
Proof. intros H. unfold wr_pointer, bind. by rewrite (get_ref_live _ _ _ H). Qed.

Lemma wr_last_live s a r v :
  refs s !! a = Some r →
  wr_last a v s = Ret tt (set_refs <[a := Ref.mk (Ref.pointer r) v (Ref.next r)]> s).
Proof. intros H. unfold wr_last, bind. by rewrite (get_ref_live _ _ _ H). Qed.

Lemma wr_next_live s a r v :
  refs s !! a = Some r →
  wr_next a v s = Ret tt (set_refs <[a := Ref.mk (Ref.pointer r) (Ref.last r) v]> s).
Proof. intros H. unfold wr_next, bind. by rewrite (get_ref_live _ _ _ H). Qed.

Lemma get_single_live s a o : singles s !! a = Some o → get_single a s = Ret o s.
Proof. intros H. unfold get_single. by rewrite H. Qed.

Lemma rd_Spointer_live s a o :
  singles s !! a = Some o → rd_Spointer a s = Ret (Single.pointer o) s.
Proof. intros H. unfold rd_Spointer, bind. by rewrite (get_single_live _ _ _ H). Qed.

Lemma rd_top_live s a o :
  singles s !! a = Some o → rd_top a s = Ret (Single.top o) s.
Proof. intros H. unfold rd_top, bind. by rewrite (get_single_live _ _ _ H). Qed.

Lemma wr_Spointer_live s a o v :
  singles s !! a = Some o →
  wr_Spointer a v s = Ret tt (set_singles <[a := Single.mk v (Single.top o)]> s).
Proof. intros H. unfold wr_Spointer, bind. by rewrite (get_single_live _ _ _ H). Qed.

Lemma wr_top_live s a o v :
  singles s !! a = Some o →
  wr_top a v s = Ret tt (set_singles <[a := Single.mk (Single.pointer o) v]> s).
Proof. intros H. unfold wr_top, bind. by rewrite (get_single_live _ _ _ H). Qed.

Lemma set_refs_ext f g s :
  f (refs s) = g (refs s) → set_refs f s = set_refs g s.
Proof. unfold set_refs. by intros ->. Qed.

Lemma state_eq s1 s2 :
  heap s1 = heap s2 → singles s1 = singles s2 → refs s1 = refs s2 → s1 = s2.
Proof. destruct s1, s2; simpl. by intros -> -> ->. Qed.

(** ** [nullify] and [invalidate] *)

Lemma nullify_live s this r :
  refs s !! this = Some r →
  nullify this s = Ret tt (set_refs <[this := Ref.mk 0 0 0]> s).
Proof.
  intros H. unfold nullify.
  erewrite bind_Ret by (by eapply wr_pointer_live).
  erewrite bind_Ret by (eapply wr_last_live; simpl; apply lookup_insert_eq).
  erewrite wr_next_live by (simpl; apply lookup_insert_eq).
  unfold set_refs; simpl. by rewrite !insert_insert_eq.
Qed.

(** The walk stops at its first node: [nullify] has already cleared the
    [next] link that the test [if (next)] reads. *)
Lemma invalidate_live fuel s this r :
  refs s !! this = Some r →
  invalidate (S fuel) this s = Ret tt (set_refs <[this := Ref.mk 0 0 0]> s).
Proof.
  intros H. simpl.
  erewrite bind_Ret by (by eapply nullify_live).
  erewrite bind_Ret by (eapply rd_next_live; simpl; apply lookup_insert_eq).
  reflexivity.
Qed.

(** ** [delink] and the destructor of [Ref] *)

Lemma insert_as_alter {V} (f : V → V) (m : gmap N V) i x :
  m !! i = Some x → <[i := f x]> m = alter f i m.
Proof.
  intros H. apply map_eq; intros j.
  rewrite lookup_insert, lookup_alter.
  case_decide; [subst; by rewrite H | done].
Qed.

Lemma lookup_alter_at {V} (f : V → V) (m : gmap N V) i j :
  alter f i m !! j = if decide (j = i) then f <$> m !! j else m !! j.
Proof.
  rewrite lookup_alter. repeat case_decide; by subst.
Qed.

Lemma wr_last_alter s a v :
  is_Some (refs s !! a) →
  wr_last a v s = Ret tt (set_refs (alter (set_last v) a) s).
Proof.
  intros [x Hx]. rewrite (wr_last_live _ _ _ _ Hx). f_equal.
  apply set_refs_ext. by apply (insert_as_alter (set_last v)).
Qed.

Lemma wr_next_alter s a v :
  is_Some (refs s !! a) →
  wr_next a v s = Ret tt (set_refs (alter (set_next v) a) s).
Proof.
  intros [x Hx]. rewrite (wr_next_live _ _ _ _ Hx). f_equal.
  apply set_refs_ext. by apply (insert_as_alter (set_next v)).
Qed.

(** Writing a [Ref]'s own link back into a neighbour leaves the [Ref]
    itself as it was, also when it is its own neighbour. *)
Lemma lookup_alter_set_last_self (m : gmap N Ref.t) this n r :
  m !! this = Some r →
  alter (set_last (Ref.last r)) n m !! this = Some r.
Proof.
  intros H. rewrite lookup_alter. case_decide; [subst n|done].
  rewrite H. by destruct r.
Qed.

Lemma lookup_alter_set_next_self (m : gmap N Ref.t) this n r :
  m !! this = Some r →
  alter (set_next (Ref.next r)) n m !! this = Some r.
Proof.
  intros H. rewrite lookup_alter. case_decide; [subst n|done].
  rewrite H. by destruct r.
Qed.

Lemma unlinked_lookup_self (m : gmap N Ref.t) this r :
  m !! this = Some r → unlinked r m !! this = Some r.
Proof.
  intros H. unfold unlinked.
  destruct (Ref.next r =? 0), (Ref.last r =? 0);
    auto using lookup_alter_set_last_self, lookup_alter_set_next_self.
Qed.

Lemma set_refs_id s : set_refs (λ m, m) s = s.
Proof. by destruct s. Qed.

Lemma delink_live s this r :
  refs s !! this = Some r →
  neighbours_live r (refs s) →
  delink this s = Ret tt (set_refs (unlinked r) s).
Proof.
  intros H [Hn Hl]. unfold delink, unlinked.
  assert (Hstep : ∀ s1,
    refs s1 !! this = Some r →
    (Ref.last r ≠ 0 → is_Some (refs s1 !! Ref.last r)) →
    (l <- rd_last this ;;
     when (negb (l =? 0))
       (l <- rd_last this ;; n <- rd_next this ;; wr_next l n)) s1
    = Ret tt (set_refs (λ m, if Ref.last r =? 0 then m
                             else alter (set_next (Ref.next r)) (Ref.last r) m) s1)).
  { intros s1 H1 Hl1.
    erewrite bind_Ret by (by eapply rd_last_live).
    destruct (N.eqb_spec (Ref.last r) 0) as [E|E]; simpl.
    - by rewrite set_refs_id.
    - erewrite bind_Ret by (by eapply rd_last_live).
      erewrite bind_Ret by (by eapply rd_next_live).
      by apply wr_next_alter, Hl1. }
  assert (Hfirst :
    (n <- rd_next this ;;
     when (negb (n =? 0))
       (n <- rd_next this ;; l <- rd_last this ;; wr_last n l)) s
    = Ret tt (set_refs (λ m, if Ref.next r =? 0 then m
                             else alter (set_last (Ref.last r)) (Ref.next r) m) s)).
  { erewrite bind_Ret by (by eapply rd_next_live).
    destruct (N.eqb_spec (Ref.next r) 0) as [E|E]; simpl.
    - by rewrite set_refs_id.
    - erewrite bind_Ret by (by eapply rd_next_live).
      erewrite bind_Ret by (by eapply rd_last_live).
      by apply wr_last_alter, Hn. }
  rewrite (bind_Ret _ _ _ _ _ Hfirst), Hstep; [done | |]; simpl.
  - destruct (Ref.next r =? 0); [done|].
    by apply lookup_alter_set_last_self.
  - intros E'. destruct (Ref.next r =? 0); [by apply Hl|].
    rewrite lookup_alter_is_Some. by apply Hl.
Qed.


(** ** Dereference and validity *)

Lemma Ref_star_live s this r :
  refs s !! this = Some r →
  Ref_star this s =
    if Ref.pointer r =? 0 then Throw InvalidRefException s
    else Ret (Ref.pointer r) s.
Proof.
  intros H. unfold Ref_star.
  erewrite bind_Ret by (by eapply rd_pointer_live).
  by destruct (Ref.pointer r =? 0).
Qed.

Lemma Ref_arrow_live s this r :
  refs s !! this = Some r →
  Ref_arrow this s =
    if Ref.pointer r =? 0 then Throw InvalidRefException s
    else Ret (Ref.pointer r) s.
Proof.
  intros H. unfold Ref_arrow.
  erewrite bind_Ret by (by eapply rd_pointer_live).
  by destruct (Ref.pointer r =? 0).
Qed.

Lemma Ref_bool_live s this r :
  refs s !! this = Some r →
  Ref_bool this s = Ret (negb (Ref.pointer r =? 0)) s.
Proof.
  intros H. unfold Ref_bool.
  by erewrite bind_Ret by (by eapply rd_pointer_live).
Qed.

(** C7: on a live [Ref], [operator*] and [operator->] throw exactly when
    [pointer] is null, and what they throw is [InvalidRefException] with the
    store untouched; otherwise they return [pointer]; [operator bool]
    returns [true] exactly when [pointer] is not null. *)
Theorem Ref_deref_iff_null s this r :
  refs s !! this = Some r →
  (∀ e s', Ref_star this s = Throw e s' ↔
           e = InvalidRefException ∧ s' = s ∧ Ref.pointer r = 0) ∧
  (∀ e s', Ref_arrow this s = Throw e s' ↔
           e = InvalidRefException ∧ s' = s ∧ Ref.pointer r = 0) ∧
  (Ref_bool this s = Ret true s ↔ Ref.pointer r ≠ 0) ∧
  (Ref_bool this s = Ret false s ↔ Ref.pointer r = 0) ∧
  (Ref.pointer r ≠ 0 →
   Ref_star this s = Ret (Ref.pointer r) s ∧
   Ref_arrow this s = Ret (Ref.pointer r) s).
Proof.
  intros H.
  rewrite (Ref_star_live _ _ _ H), (Ref_arrow_live _ _ _ H),
    (Ref_bool_live _ _ _ H).
  destruct (N.eqb_spec (Ref.pointer r) 0) as [E|E]; simpl; split_and!;
    try (intros e s'); try split; try done.
  - by intros [= <- <-].
  - by intros (-> & -> & _).
  - by intros [= <- <-].
  - by intros (-> & -> & _).
  - by intros (_ & _ & ?).
  - by intros (_ & _ & ?).
Qed.

(** ** Assignment *)


(** ** The two casts *)

Lemma dynamic_cast_live (T : ty) s p x :
  p ≠ 0 → heap s !! p = Some x →
  dynamic_cast has_type T p s = Ret (if has_type x T then p else 0) s.
Proof.
  intros Hp Hx. unfold dynamic_cast.
  destruct (N.eqb_spec p 0); [done|]. by rewrite Hx.
Qed.

(** A failed check, whether on a null pointer or on an object of another
    type, gives a null pointer. *)
Lemma dynamic_cast_fails (T : ty) s p :
  p = 0 ∨ (∃ x, heap s !! p = Some x ∧ has_type x T = false) →
  dynamic_cast has_type T p s = Ret 0 s.
Proof.
  intros [->|(x & Hx & Hty)]; [done|].
  unfold dynamic_cast. destruct (p =? 0); [done|]. by rewrite Hx, Hty.
Qed.

Lemma nothrow_ret {A} (x : A) : nothrow (Obj:=Obj) (ret x).
Proof. by intros s e s'. Qed.

Lemma nothrow_bind {A B} (m : M Obj A) (k : A → M Obj B) :
  nothrow m → (∀ x, nothrow (k x)) → nothrow (bind m k).
Proof.
  intros Hm Hk s e s'. unfold bind.
  destruct (m s) as [x s1|e1 s1| |] eqn:E; try done.
  - apply Hk.
  - by apply Hm in E.
Qed.

Lemma nothrow_when c (m : M Obj unit) : nothrow m → nothrow (when c m).
Proof. destruct c; [done|]. intros _. apply nothrow_ret. Qed.

Lemma nothrow_get_ref a : nothrow (Obj:=Obj) (get_ref a).
Proof. intros s e s'. unfold get_ref. by destruct (refs s !! a). Qed.

Lemma nothrow_put_ref a r : nothrow (Obj:=Obj) (put_ref a r).
Proof. by intros s e s'. Qed.

Lemma nothrow_dynamic_cast (T : ty) p : nothrow (dynamic_cast has_type T p).
Proof.
  intros s e s'. unfold dynamic_cast.
  destruct (p =? 0); [done|]. by destruct (heap s !! p).
Qed.

Create HintDb nothrow.
Local Hint Resolve nothrow_ret nothrow_when nothrow_get_ref nothrow_put_ref
  nothrow_dynamic_cast : nothrow.
Local Hint Extern 2 (nothrow (bind _ _)) =>
  apply nothrow_bind; [|intros ?] : nothrow.

Lemma nothrow_rd_pointer a : nothrow (Obj:=Obj) (rd_pointer a).
Proof. unfold rd_pointer. auto with nothrow. Qed.
Lemma nothrow_rd_last a : nothrow (Obj:=Obj) (rd_last a).
Proof. unfold rd_last. auto with nothrow. Qed.
Lemma nothrow_rd_next a : nothrow (Obj:=Obj) (rd_next a).
Proof. unfold rd_next. auto with nothrow. Qed.
Lemma nothrow_wr_pointer a v : nothrow (Obj:=Obj) (wr_pointer a v).
Proof. unfold wr_pointer. auto with nothrow. Qed.
Lemma nothrow_wr_last a v : nothrow (Obj:=Obj) (wr_last a v).
Proof. unfold wr_last. auto with nothrow. Qed.
Lemma nothrow_wr_next a v : nothrow (Obj:=Obj) (wr_next a v).
Proof. unfold wr_next. auto with nothrow. Qed.
Lemma nothrow_Ref_ctor a : nothrow (Obj:=Obj) (Ref_ctor a).
Proof. unfold Ref_ctor. auto with nothrow. Qed.

Local Hint Resolve nothrow_rd_pointer nothrow_rd_last nothrow_rd_next
  nothrow_wr_pointer nothrow_wr_last nothrow_wr_next nothrow_Ref_ctor
  : nothrow.

Lemma nothrow_NullRef a : nothrow (Obj:=Obj) (NullRef a).
Proof. unfold NullRef. auto with nothrow. Qed.

Lemma nothrow_RefCast (To : ty) res ref : nothrow (RefCast has_type To res ref).
Proof.
  unfold RefCast.
  apply nothrow_bind; [auto with nothrow|]. intros p.
  apply nothrow_bind; [auto with nothrow|]. intros pointerNew.
  destruct (negb (pointerNew =? 0)); [|apply nothrow_NullRef].
  auto 20 with nothrow.
Qed.

(** C8: [RefCast] throws on no input at all; and on a live source whose
    [pointer] is null, or points to an object on which the type check
    fails, it returns a [Ref] with null [pointer] and null links, every
    other object being left as it was. *)
Theorem RefCast_never_throws (To : ty) res ref s :
  (∀ e s', RefCast has_type To res ref s ≠ Throw e s') ∧
  (∀ r, refs s !! ref = Some r →
        Ref.pointer r = 0 ∨
          (∃ x, heap s !! Ref.pointer r = Some x ∧ has_type x To = false) →
        RefCast has_type To res ref s =
          Ret res (set_refs <[res := Ref.mk 0 0 0]> s)).
Proof.
  split; [intros e s'; apply nothrow_RefCast|].
  intros r H Hfail. unfold RefCast.
  erewrite bind_Ret by (by eapply rd_pointer_live).
  erewrite bind_Ret by (by eapply dynamic_cast_fails).
  reflexivity.
Qed.

(** C3: the converting move constructor, building at the fresh address
    [this] from the live [Single] at [other].  If the type check on the
    source's [pointer] fails (the pointer is null or the object is of
    another type) it throws [bad_cast] and the whole store, the source
    included, is as before.  If the check succeeds the new [Single] holds
    the source's [pointer] and [top], and the source holds two nulls. *)
Theorem Single_move_cast_all_or_nothing (T : ty) s this other o :
  singles s !! other = Some o →
  singles s !! this = None →
  (Single.pointer o = 0 ∨
     (∃ x, heap s !! Single.pointer o = Some x ∧ has_type x T = false) →
   Single_move_cast has_type T this other s = Throw bad_cast s) ∧
  (∀ x, Single.pointer o ≠ 0 →
        heap s !! Single.pointer o = Some x → has_type x T = true →
        ∃ s', Single_move_cast has_type T this other s = Ret tt s' ∧
              singles s' !! this = Some (Single.mk (Single.pointer o) (Single.top o)) ∧
              singles s' !! other = Some (Single.mk 0 0) ∧
              (∀ a, a ≠ this → a ≠ other → singles s' !! a = singles s !! a) ∧
              heap s' = heap s ∧ refs s' = refs s).
Proof.
  intros Ho Hthis.
  assert (Hne : this ≠ other) by congruence.
  split.
  - intros Hfail. unfold Single_move_cast, put_single.
    erewrite bind_Ret by reflexivity.
    erewrite bind_Ret
      by (eapply rd_Spointer_live; simpl; by rewrite lookup_insert_ne).
    erewrite bind_Ret by (by eapply dynamic_cast_fails).
    erewrite bind_Ret by (eapply wr_Spointer_live; simpl; apply lookup_insert_eq).
    erewrite bind_Ret by (eapply rd_Spointer_live; simpl; apply lookup_insert_eq).
    simpl. unfold bind, free_single, throw; simpl. f_equal.
    apply state_eq; simpl; try done.
    by rewrite insert_insert_eq, delete_insert_id.
  - intros x Hp Hx Hty. eexists. split.
    { unfold Single_move_cast, put_single.
      erewrite bind_Ret by reflexivity.
      erewrite bind_Ret
        by (eapply rd_Spointer_live; simpl; by rewrite lookup_insert_ne).
      erewrite bind_Ret by (by eapply dynamic_cast_live).
      rewrite Hty.
      erewrite bind_Ret by (eapply wr_Spointer_live; simpl; apply lookup_insert_eq).
      erewrite bind_Ret by (eapply rd_Spointer_live; simpl; apply lookup_insert_eq).
      simpl. destruct (N.eqb_spec (Single.pointer o) 0); [done|].
      erewrite bind_Ret
        by (eapply rd_top_live; simpl; by rewrite !lookup_insert_ne).
      erewrite bind_Ret by (eapply wr_top_live; simpl; apply lookup_insert_eq).
      erewrite bind_Ret
        by (eapply wr_Spointer_live; simpl; by rewrite !lookup_insert_ne).
      erewrite wr_top_live by (simpl; apply lookup_insert_eq).
      reflexivity. }
    simpl. split_and!; try done.
    + rewrite !lookup_insert_ne by done. apply lookup_insert_eq.
    + apply lookup_insert_eq.
    + intros a ? ?. by rewrite !lookup_insert_ne by done.
Qed.

(** ** Moving and destroying a [Single] *)

Lemma delete_obj_null s : delete_obj 0 s = Ret tt s.
Proof. reflexivity. Qed.

Lemma delete_obj_live s p x :
  p ≠ 0 → heap s !! p = Some x →
  delete_obj p s = Ret tt (set_heap (delete p) s).
Proof.
  intros Hp Hx. unfold delete_obj.
  destruct (N.eqb_spec p 0); [done|]. by rewrite Hx.
Qed.

(** A [Single] holding two nulls dies without touching anything else. *)
Lemma Single_dtor_empty fuel s this :
  singles s !! this = Some (Single.mk 0 0) →
  Single_dtor fuel this s = Ret tt (set_singles (delete this) s).
Proof.
  intros H. unfold Single_dtor.
  erewrite bind_Ret by (by eapply rd_Spointer_live).
  erewrite bind_Ret by apply delete_obj_null.
  erewrite bind_Ret by (by eapply rd_top_live).
  simpl. by erewrite (bind_Ret (ret tt)) by reflexivity.
Qed.

(** The destructor of an owner with a live head, on any positive budget:
    the object is freed and the head, and only the head, is cleared. *)
Lemma Single_dtor_head_only fuel s this o x r :
  singles s !! this = Some o →
  Single.pointer o ≠ 0 → heap s !! Single.pointer o = Some x →
  Single.top o ≠ 0 → refs s !! Single.top o = Some r →
  Single_dtor (S fuel) this s =
    Ret tt (mkState (delete (Single.pointer o) (heap s))
                    (delete this (singles s))
                    (<[Single.top o := Ref.mk 0 0 0]> (refs s))).
Proof.
  intros H Hp Hx Ht Hr. unfold Single_dtor.
  erewrite bind_Ret by (by eapply rd_Spointer_live).
  erewrite bind_Ret by (by eapply delete_obj_live).
  erewrite bind_Ret by (by eapply rd_top_live).
  destruct (N.eqb_spec (Single.top o) 0); [done|].
  erewrite (bind_Ret (when _ _)); last first.
  { cbn [when negb].
    erewrite bind_Ret by (by eapply rd_top_live).
    by eapply invalidate_live. }
  reflexivity.
Qed.

(** C5: the move constructor, building at [this] from the live [Single]
    at [other], returns; the new [Single] holds the source's [pointer] and
    [top], the source holds two nulls, and every [Ref] and the heap are as
    before.  Destroying the source afterwards, on any budget, returns and
    again leaves every [Ref], the heap and the new [Single] as they are. *)
Theorem Single_move_keeps_refs fuel s this other o :
  singles s !! other = Some o →
  this ≠ other →
  ∃ s1, Single_move this other s = Ret tt s1 ∧
        singles s1 !! this = Some (Single.mk (Single.pointer o) (Single.top o)) ∧
        singles s1 !! other = Some (Single.mk 0 0) ∧
        refs s1 = refs s ∧ heap s1 = heap s ∧
        ∃ s2, Single_dtor fuel other s1 = Ret tt s2 ∧
              refs s2 = refs s ∧ heap s2 = heap s ∧
              singles s2 !! this = Some (Single.mk (Single.pointer o) (Single.top o)) ∧
              singles s2 !! other = None.
Proof.
  intros Ho Hne. eexists. split.
  { unfold Single_move, put_single.
    erewrite bind_Ret by (by eapply rd_Spointer_live).
    erewrite bind_Ret by (by eapply rd_top_live).
    erewrite bind_Ret by reflexivity.
    erewrite bind_Ret
      by (eapply wr_Spointer_live; simpl; by rewrite lookup_insert_ne).
    erewrite wr_top_live by (simpl; apply lookup_insert_eq).
    reflexivity. }
  simpl. split_and!; try done.
  - rewrite !lookup_insert_ne by done. apply lookup_insert_eq.
  - apply lookup_insert_eq.
  - eexists. split.
    { apply Single_dtor_empty. simpl. apply lookup_insert_eq. }
    simpl. split_and!; try done.
    + rewrite lookup_delete_ne by done.
      rewrite !lookup_insert_ne by done. apply lookup_insert_eq.
    + apply lookup_delete_eq.
Qed.

End Facts.

(** * The header run on the client's scenarios *)

Section Scenarios.

Import Demo.

(** C1: with two references bound to one owner, the owner's destructor
    (on any positive budget) returns having freed the object and cleared
    the head [Ref] at 2 only.  The [Ref] at 1 keeps its [pointer] to the
    freed object: it converts to [true] and dereferencing it returns that
    pointer instead of throwing. *)
Theorem owner_dtor_clears_head_only (fuel : nat) :
  let out := run (two_refs_owner_dies (S fuel)) in
  value out = Some (inl tt) ∧
  obj_at 1000 out = None ∧
  ref_at 2 out = Some (Ref.mk 0 0 0) ∧
  ref_at 1 out = Some (Ref.mk 1000 2 0) ∧
  value (run (two_refs_owner_dies (S fuel) ;; Ref_bool 1)) = Some (inl true) ∧
  value (run (two_refs_owner_dies (S fuel) ;; Ref_star 1)) = Some (inl 1000).
Proof. vm_compute. by split_and!. Qed.

(** C2: a successful [RefCast] of the head [Ref] at 1 puts its result at 2
    in front of the source ([next] of 2 is 1, [last] of 1 is 2) while the
    owner's [top] stays 1; after the owner's destructor the source is
    cleared and the cast result still holds the pointer to the freed
    object and converts to [true].  When the source is not the head (chain
    2, 3, 1 after the cast into 3) the destructor clears the head 2 only
    and both the source 1 and the cast result 3 stay bound. *)
Theorem cast_result_survives_owner (fuel : nat) :
  let linked_up :=
    run (with_derived_owner ;; Ref_of_Single 1 100 ;;
         RefCast is_a Derived 2 1) in
  let out := run (cast_of_head_owner_dies (S fuel)) in
  let out' := run (cast_of_inner_owner_dies (S fuel)) in
  (value linked_up = Some (inl 2) ∧
   ref_at 2 linked_up = Some (Ref.mk 1000 0 1) ∧
   ref_at 1 linked_up = Some (Ref.mk 1000 2 0) ∧
   single_at 100 linked_up = Some (Single.mk 1000 1)) ∧
  (value out = Some (inl tt) ∧
   obj_at 1000 out = None ∧
   ref_at 1 out = Some (Ref.mk 0 0 0) ∧
   ref_at 2 out = Some (Ref.mk 1000 0 1) ∧
   value (run (cast_of_head_owner_dies (S fuel) ;; Ref_bool 2)) = Some (inl true)) ∧
  (value out' = Some (inl tt) ∧
   obj_at 1000 out' = None ∧
   ref_at 2 out' = Some (Ref.mk 0 0 0) ∧
   ref_at 3 out' = Some (Ref.mk 1000 2 1) ∧
   ref_at 1 out' = Some (Ref.mk 1000 3 0)).
Proof. vm_compute. by split_and!. Qed.

(** Returning the result of [RefCast] through the copy constructor leaves
    the same store as building it in place, for a source that is the head
    and for one that is not. *)
Example RefCast_copied_same_store :
  final (run (with_derived_owner ;; Ref_of_Single 1 100 ;;
              RefCast_copied is_a Derived 9 2 1)) =
  final (run (with_derived_owner ;; Ref_of_Single 1 100 ;;
              RefCast is_a Derived 2 1)) ∧
  final (run (with_derived_owner ;; Ref_of_Single 1 100 ;;
              Ref_of_Single 2 100 ;; RefCast_copied is_a Derived 9 3 1)) =
  final (run (with_derived_owner ;; Ref_of_Single 1 100 ;;
              Ref_of_Single 2 100 ;; RefCast is_a Derived 3 1)).
Proof. vm_compute. by split. Qed.

(** C4: copy-constructing, and likewise assigning, from an empty [Ref]
    gives a [Ref] whose [pointer] is null but whose [next] is the source,
    and makes [last] of the source point back: both are empty and
    linked.  Binding a [Ref] to a moved-from owner likewise gives a null
    [pointer] in a [Ref] that the owner's [top] names. *)
Theorem copy_of_empty_is_linked :
  let out := run copy_of_empty in
  let out' := run assign_of_empty in
  let out'' := run bind_to_emptied_owner in
  (value out = Some (inl tt) ∧
   ref_at 2 out = Some (Ref.mk 0 0 1) ∧
   ref_at 1 out = Some (Ref.mk 0 2 0) ∧
   linked_at 2 out = Some true ∧
   linked_at 1 out = Some true) ∧
  (value out' = Some (inl tt) ∧
   ref_at 2 out' = Some (Ref.mk 0 0 1) ∧
   ref_at 1 out' = Some (Ref.mk 0 2 0) ∧
   linked_at 2 out' = Some true ∧
   linked_at 1 out' = Some true) ∧
  (value out'' = Some (inl tt) ∧
   ref_at 1 out'' = Some (Ref.mk 0 0 0) ∧
   single_at 100 out'' = Some (Single.mk 0 1) ∧
   linked_at 1 out'' = Some true).
Proof. vm_compute. by split_and!. Qed.

(** C9: when the head [Ref] is destroyed, [top] of its owner still holds
    its address although no [Ref] lives there any more, and the owner's
    destructor then calls [invalidate] through that address: undefined
    behaviour on every budget. *)
Theorem top_dangles_after_head_dies (fuel : nat) :
  let out := run head_ref_dies in
  value out = Some (inl tt) ∧
  single_at 100 out = Some (Single.mk 1000 1) ∧
  ref_at 1 out = None ∧
  run (head_ref_dies ;; Single_dtor (S fuel) 100) = Undefined.
Proof. vm_compute. by split_and!. Qed.

(** C6: of two references bound to one owner the head is destroyed.  The
    other reference keeps its pointer and the object is untouched, but the
    destroyed reference has not left the chain: the owner's [top] still
    holds its address, at which no [Ref] lives, and the surviving
    reference is no longer reachable from the owner.  Binding a further
    reference to the owner, and destroying the owner on any positive
    budget, then go through that address: undefined behaviour. *)
Theorem head_ref_dtor_stays_chain_head (fuel : nat) :
  let out := run two_refs_head_dies in
  value out = Some (inl tt) ∧
  ref_at 2 out = None ∧
  single_at 100 out = Some (Single.mk 1000 2) ∧
  ref_at 1 out = Some (Ref.mk 1000 0 0) ∧
  obj_at 1000 out = Some (Base, 20%Z) ∧
  run (two_refs_head_dies ;; Ref_of_Single 3 100) = Undefined ∧
  run (two_refs_head_dies ;; Single_dtor (S fuel) 100) = Undefined.
Proof. vm_compute. by split_and!. Qed.

End Scenarios.

(** * The general statements at concrete stores *)

Section Instances.

Import Demo.



(** A bound reference: valid, and dereferencing returns the object. *)
Lemma Ref_deref_iff_null_witness :
  Ref_bool 1 chain_of_two = Ret true chain_of_two ∧
  Ref_star 1 chain_of_two = Ret 1000 chain_of_two ∧
  Ref_arrow 1 chain_of_two = Ret 1000 chain_of_two.
Proof.
  destruct (Ref_deref_iff_null chain_of_two 1 (Ref.mk 1000 2 0))
    as (_ & _ & Hb & _ & Hd).
  - reflexivity.
  - split; [by apply Hb | by apply Hd].
Defined.


(** A reference to a [Base] object is cast to [Unrelated]. *)
Lemma RefCast_never_throws_witness :
  RefCast is_a Unrelated 3 1 chain_of_two =
    Ret 3 (set_refs <[3 := Ref.mk 0 0 0]> chain_of_two).
Proof.
  destruct (RefCast_never_throws is_a Unrelated 3 1 chain_of_two)
    as [_ Hfail].
  apply (Hfail (Ref.mk 1000 2 0)).
  - reflexivity.
  - right. exists (Base, 20%Z). split; reflexivity.
Defined.

(** An owner of a [Base] object is moved into an owner of [Derived]. *)
Lemma Single_move_cast_all_or_nothing_witness :
  Single_move_cast is_a Derived 101 100 chain_of_two =
    Throw bad_cast chain_of_two.
Proof.
  destruct (Single_move_cast_all_or_nothing is_a Derived chain_of_two
              101 100 (Single.mk 1000 2)) as [Hfail _].
  - reflexivity.
  - reflexivity.
  - apply Hfail. right. exists (Base, 20%Z). split; reflexivity.
Defined.

(** The owner of the chain 2, 1 is moved to address 101 and then dies. *)
Lemma Single_move_keeps_refs_witness :
  ∃ s1 s2, Single_move 101 100 chain_of_two = Ret tt s1 ∧
           Single_dtor 0 100 s1 = Ret tt s2 ∧
           refs s2 = refs chain_of_two ∧
           singles s2 !! 101 = Some (Single.mk 1000 2).
Proof.
  destruct (Single_move_keeps_refs 0 chain_of_two 101 100 (Single.mk 1000 2))
    as (s1 & Hmove & _ & _ & _ & _ & s2 & Hdtor & Hrefs & _ & Hnew & _).
  - reflexivity.
  - discriminate.
  - exists s1, s2. split_and!; assumption.
Defined.

End Instances.

(** * Binding, copying and the rest of the interface *)

Section Binding.

Context {ty Obj : Type} (has_type : Obj → ty → bool).
Implicit Types (s : state Obj) (r ro : Ref.t) (o : Single.t).
Implicit Types (a this other single : N).

Lemma unlinked_is_Some r (m : gmap N Ref.t) a :
  is_Some (unlinked r m !! a) ↔ is_Some (m !! a).
Proof.
  unfold unlinked.
  destruct (Ref.next r =? 0), (Ref.last r =? 0);
    by rewrite ?lookup_alter_is_Some.
Qed.

Lemma unlinked_empty_record (m : gmap N Ref.t) : unlinked (Ref.mk 0 0 0) m = m.
Proof. reflexivity. Qed.

Lemma neighbours_live_empty_record (m : gmap N Ref.t) :
  neighbours_live (Ref.mk 0 0 0) m.
Proof. by split. Qed.

(** ** Binding to an owner *)

(** [operator=(const Single&)] on a live [Ref] with live neighbours and a
    live owner whose head, if any, is live. *)
Lemma Ref_assign_Single_run s this single r o :
  refs s !! this = Some r →
  neighbours_live r (refs s) →
  singles s !! single = Some o →
  (Single.top o ≠ 0 → is_Some (refs s !! Single.top o)) →
  Ref_assign_Single this single s =
    Ret this
      (mkState (heap s)
               (<[single := Single.mk (Single.pointer o) this]> (singles s))
               (bound this (Single.pointer o) (Single.top o)
                      (unlinked r (refs s)))).
Proof.
  intros H Hnb Ho Ht. unfold Ref_assign_Single.
  erewrite bind_Ret by (by eapply delink_live).
  erewrite bind_Ret
    by (eapply nullify_live; simpl; by apply unlinked_lookup_self).
  erewrite bind_Ret by (by eapply rd_Spointer_live).
  erewrite bind_Ret by (eapply wr_pointer_live; simpl; apply lookup_insert_eq).
  erewrite bind_Ret by (by eapply rd_top_live).
  unfold bound.
  destruct (N.eqb_spec (Single.top o) 0) as [E|E]; cbn [when negb].
  - erewrite (bind_Ret (ret tt)) by reflexivity.
    erewrite bind_Ret by (by eapply wr_top_live).
    unfold ret. f_equal. apply state_eq; simpl; try done.
    by rewrite !insert_insert_eq, E.
  - erewrite (bind_Ret (bind _ _)); last first.
    { erewrite bind_Ret by (by eapply rd_top_live).
      erewrite bind_Ret by (eapply wr_next_live; simpl; apply lookup_insert_eq).
      erewrite bind_Ret by (by eapply rd_top_live).
      eapply wr_last_alter. simpl.
      destruct (decide (this = Single.top o)) as [<-|Hne].
      - rewrite lookup_insert_eq. eauto.
      - rewrite !lookup_insert_ne by done. apply unlinked_is_Some. auto. }
    erewrite bind_Ret by (by eapply wr_top_live).
    unfold ret. f_equal. apply state_eq; simpl; try done.
    by rewrite !insert_insert_eq.
Qed.

(** X1: assigning a live owner to a live [Ref] that is not already its
    head returns the [Ref]; the [Ref] then holds the owner's [pointer], has
    no predecessor and has the old head as successor; the owner's [top] is
    the [Ref]; the old head, if there is one, has the [Ref] as predecessor;
    the heap, every other owner and the [pointer] of every other [Ref] are
    as before. *)
Theorem Ref_assign_Single_binds_at_head s this single r o :
  refs s !! this = Some r →
  neighbours_live r (refs s) →
  singles s !! single = Some o →
  (Single.top o ≠ 0 → is_Some (refs s !! Single.top o)) →
  Single.top o ≠ this →
  ∃ s', Ref_assign_Single this single s = Ret this s' ∧
        refs s' !! this =
          Some (Ref.mk (Single.pointer o) 0 (Single.top o)) ∧
        singles s' !! single = Some (Single.mk (Single.pointer o) this) ∧
        (Single.top o ≠ 0 →
         ∃ h, refs s' !! Single.top o = Some h ∧ Ref.last h = this) ∧
        heap s' = heap s ∧
        (∀ a, a ≠ single → singles s' !! a = singles s !! a) ∧
        (∀ a x, a ≠ this → refs s !! a = Some x →
           ∃ x', refs s' !! a = Some x' ∧ Ref.pointer x' = Ref.pointer x).
Proof.
  intros H Hnb Ho Ht Hne. eexists. split.
  { by eapply Ref_assign_Single_run. }
  simpl. unfold bound. split_and!; try done.
  - destruct (Single.top o =? 0); [apply lookup_insert_eq|].
    rewrite lookup_alter_ne by done. apply lookup_insert_eq.
  - apply lookup_insert_eq.
  - intros E. destruct (N.eqb_spec (Single.top o) 0); [done|].
    rewrite lookup_alter_eq, lookup_insert_ne by done.
    destruct (proj2 (unlinked_is_Some r (refs s) (Single.top o)) (Ht E))
      as [h Hh].
    rewrite Hh. by eexists.
  - intros a Ha. by rewrite lookup_insert_ne.
  - intros a x Ha Hx.
    assert (∃ y, unlinked r (refs s) !! a = Some y ∧
                 Ref.pointer y = Ref.pointer x) as (y & Hy & Hp).
    { unfold unlinked.
      destruct (Ref.next r =? 0), (Ref.last r =? 0);
        rewrite ?lookup_alter_at, Hx; repeat case_decide; by eexists. }
    destruct (Single.top o =? 0).
    + rewrite lookup_insert_ne by done. eauto.
    + rewrite lookup_alter_at, lookup_insert_ne, Hy by done.
      case_decide; by eexists.
Qed.

(** X2: assigning its own owner again to the [Ref] that is already the
    head makes the [Ref] its own predecessor and successor. *)
Theorem Ref_assign_Single_again_self_links s this single r o :
  refs s !! this = Some r →
  neighbours_live r (refs s) →
  singles s !! single = Some o →
  Single.top o = this →
  this ≠ 0 →
  ∃ s', Ref_assign_Single this single s = Ret this s' ∧
        refs s' !! this = Some (Ref.mk (Single.pointer o) this this) ∧
        singles s' !! single = Some (Single.mk (Single.pointer o) this).
Proof.
  intros H Hnb Ho Ht Hne. eexists. split.
  { eapply Ref_assign_Single_run; try done. rewrite Ht. eauto. }
  simpl. unfold bound. rewrite Ht. split; [|apply lookup_insert_eq].
  destruct (N.eqb_spec this 0); [done|].
  by rewrite lookup_alter_eq, lookup_insert_eq.
Qed.

(** ** Copying *)

(** The copy constructor at a fresh address, from a live [Ref] whose
    predecessor, if any, is live. *)
Lemma Ref_copy_run s this other ro :
  refs s !! this = None →
  refs s !! other = Some ro →
  (Ref.last ro ≠ 0 → is_Some (refs s !! Ref.last ro)) →
  Ref_copy this other s = Ret tt (set_refs (copied this other ro) s).
Proof.
  intros Hthis Hother Hpred.
  assert (Hne : this ≠ other) by congruence.
  pose (s0 := set_refs <[this := Ref.mk 0 0 0]> s).
  assert (H0 : refs s0 !! this = Some (Ref.mk 0 0 0))
    by apply lookup_insert_eq.
  assert (Hdelink : delink this s0 = Ret tt s0).
  { rewrite (delink_live _ _ _ H0 (neighbours_live_empty_record _)).
    by destruct s. }
  unfold Ref_copy, Ref_ctor, put_ref.
  erewrite bind_Ret by reflexivity. fold s0.
  erewrite (bind_Ret (Ref_assign _ _)); [reflexivity|].
  unfold Ref_assign.
  erewrite bind_Ret by exact Hdelink.
  erewrite bind_Ret by (by eapply nullify_live).
  erewrite bind_Ret
    by (eapply rd_pointer_live; simpl; by rewrite !lookup_insert_ne).
  erewrite bind_Ret by (eapply wr_pointer_live; simpl; apply lookup_insert_eq).
  erewrite bind_Ret by (eapply wr_next_live; simpl; apply lookup_insert_eq).
  erewrite bind_Ret
    by (eapply rd_last_live; simpl; by rewrite !lookup_insert_ne).
  unfold copied.
  destruct (N.eqb_spec (Ref.last ro) 0) as [E|E]; cbn [when negb].
  - erewrite (bind_Ret (ret tt)) by reflexivity.
    erewrite bind_Ret; last first.
    { eapply wr_last_alter. simpl. rewrite !lookup_insert_ne by done. eauto. }
    unfold ret. f_equal. apply state_eq; simpl; try done.
    by rewrite !insert_insert_eq, E.
  - assert (Hl : this ≠ Ref.last ro).
    { intros ->. destruct (Hpred E) as [? ?]. congruence. }
    erewrite (bind_Ret (bind _ _)); last first.
    { erewrite bind_Ret
        by (eapply rd_last_live; simpl; by rewrite !lookup_insert_ne).
      erewrite bind_Ret
        by (eapply wr_last_live; simpl; apply lookup_insert_eq).
      erewrite bind_Ret
        by (eapply rd_last_live; simpl; apply lookup_insert_eq).
      eapply wr_next_alter. simpl.
      rewrite !lookup_insert_ne by done. auto. }
    erewrite bind_Ret; last first.
    { eapply wr_last_alter. simpl.
      rewrite lookup_alter_is_Some, !lookup_insert_ne by done. eauto. }
    unfold ret. f_equal. apply state_eq; simpl; try done.
    by rewrite !insert_insert_eq.
Qed.

(** X3: copy-constructing at a fresh address from a live [Ref] returns;
    the copy holds the source's [pointer], has the source as successor and
    the source's old predecessor as predecessor; the source has the copy as
    predecessor; the old predecessor, if there is one, has the copy as
    successor; every [Ref] keeps its [pointer], every [Ref] other than
    these three is untouched, and so are the heap and the owners. *)
Theorem Ref_copy_splices_before_source s this other ro :
  refs s !! this = None →
  refs s !! other = Some ro →
  (Ref.last ro ≠ 0 → is_Some (refs s !! Ref.last ro)) →
  ∃ s', Ref_copy this other s = Ret tt s' ∧
        refs s' !! this =
          Some (Ref.mk (Ref.pointer ro) (Ref.last ro) other) ∧
        (∃ x, refs s' !! other = Some x ∧
              Ref.pointer x = Ref.pointer ro ∧ Ref.last x = this) ∧
        (Ref.last ro ≠ 0 →
         ∃ x, refs s' !! Ref.last ro = Some x ∧ Ref.next x = this) ∧
        (∀ a x, a ≠ this → refs s !! a = Some x →
           ∃ x', refs s' !! a = Some x' ∧ Ref.pointer x' = Ref.pointer x) ∧
        (∀ a, a ≠ this → a ≠ other → a ≠ Ref.last ro →
           refs s' !! a = refs s !! a) ∧
        heap s' = heap s ∧ singles s' = singles s.
Proof.
  intros Hthis Hother Hpred.
  assert (Hne : other ≠ this) by congruence.
  eexists. split; [by eapply Ref_copy_run|].
  simpl. unfold copied. split_and!; try done.
  - rewrite lookup_alter_ne by done.
    destruct (N.eqb_spec (Ref.last ro) 0) as [E|E]; [apply lookup_insert_eq|].
    rewrite lookup_alter_ne; [apply lookup_insert_eq|].
    intros Hl. destruct (Hpred E) as [? ?]. congruence.
  - rewrite lookup_alter_eq.
    destruct (Ref.last ro =? 0);
      rewrite ?lookup_alter_at, lookup_insert_ne, Hother by done;
      try case_decide; by eexists.
  - intros E. destruct (Hpred E) as [x Hx].
    assert (Ref.last ro ≠ this) by congruence.
    destruct (N.eqb_spec (Ref.last ro) 0); [done|].
    rewrite !lookup_alter_at, lookup_insert_ne, Hx by done.
    repeat case_decide; try done; by eexists.
  - intros a x Ha Hx.
    destruct (Ref.last ro =? 0);
      rewrite !lookup_alter_at, lookup_insert_ne, Hx by done;
      repeat case_decide; by eexists.
  - intros a Ha1 Ha2 Ha3.
    destruct (Ref.last ro =? 0);
      by rewrite !lookup_alter_ne, lookup_insert_ne by done.
Qed.

(** X4: a copy made at a fresh address and destroyed again leaves the
    store it was made in, provided the source does not live at the null
    address and its predecessor, if any, names it as successor. *)
Theorem Ref_copy_then_dtor_restores s this other ro :
  refs s !! this = None →
  refs s !! other = Some ro →
  other ≠ 0 →
  (Ref.last ro ≠ 0 →
   ∃ x, refs s !! Ref.last ro = Some x ∧ Ref.next x = other) →
  (Ref_copy this other ;; Ref_dtor this) s = Ret tt s.
Proof.
  intros Hthis Hother H0 Hpred.
  assert (Hne : other ≠ this) by congruence.
  assert (Hpred' : Ref.last ro ≠ 0 → is_Some (refs s !! Ref.last ro)).
  { intros E. destruct (Hpred E) as (x & Hx & _). eauto. }
  assert (Hl : Ref.last ro ≠ 0 → Ref.last ro ≠ this).
  { intros E Heq. destruct (Hpred' E) as [? ?]. congruence. }
  erewrite bind_Ret by (by eapply Ref_copy_run).
  unfold Ref_dtor.
  erewrite bind_Ret; last first.
  { eapply (delink_live _ _ (Ref.mk (Ref.pointer ro) (Ref.last ro) other)).
    - simpl. unfold copied. rewrite lookup_alter_ne by done.
      destruct (N.eqb_spec (Ref.last ro) 0) as [E|E];
        [apply lookup_insert_eq|].
      rewrite lookup_alter_ne by auto. apply lookup_insert_eq.
    - split; simpl; intros E; unfold copied.
      + rewrite lookup_alter_is_Some.
        destruct (Ref.last ro =? 0);
          rewrite ?lookup_alter_is_Some, lookup_insert_ne by done; eauto.
      + rewrite lookup_alter_is_Some.
        destruct (N.eqb_spec (Ref.last ro) 0); [done|].
        rewrite lookup_alter_is_Some, lookup_insert_ne
          by (intros Heq; by apply (Hl E)).
        auto. }
  unfold free_ref. f_equal. apply state_eq; simpl; try done.
  apply map_eq. intros a.
  destruct (decide (a = this)) as [->|Ha].
  { by rewrite lookup_delete_eq. }
  rewrite lookup_delete_ne by done.
  unfold unlinked, copied; simpl.
  destruct (N.eqb_spec other 0); [done|].
  destruct (N.eqb_spec (Ref.last ro) 0) as [E|E].
  - rewrite !lookup_alter_at, lookup_insert_ne by done.
    case_decide; [subst a|done].
    rewrite Hother. destruct ro; simpl in *. by rewrite E.
  - destruct (Hpred E) as (x & Hx & Hnx).
    rewrite !lookup_alter_at, lookup_insert_ne by done.
    repeat case_decide; subst; rewrite ?Hother, ?Hx; simpl; try done.
    + assert (x = ro) as -> by congruence. by destruct ro.
    + by destruct x.
    + by destruct ro.
Qed.

(** X5: a [RefCast] whose check succeeds, built at a fresh address from a
    live [Ref] with a live predecessor, leaves exactly the store that
    copy-constructing from the source leaves; its result holds the source's
    [pointer], the source as successor and the source's old predecessor as
    predecessor. *)
Theorem RefCast_success_is_copy (To : ty) s res ref ro x :
  refs s !! res = None →
  refs s !! ref = Some ro →
  (Ref.last ro ≠ 0 → is_Some (refs s !! Ref.last ro)) →
  Ref.pointer ro ≠ 0 →
  heap s !! Ref.pointer ro = Some x →
  has_type x To = true →
  ∃ s', RefCast has_type To res ref s = Ret res s' ∧
        Ref_copy res ref s = Ret tt s' ∧
        refs s' !! res = Some (Ref.mk (Ref.pointer ro) (Ref.last ro) ref).
Proof.
  intros Hres Href Hpred Hp Hx Hty.
  assert (Hne : res ≠ ref) by congruence.
  exists (set_refs (copied res ref ro) s). split_and!.
  - unfold RefCast.
    erewrite bind_Ret by (by eapply rd_pointer_live).
    erewrite bind_Ret by (by eapply dynamic_cast_live).
    rewrite Hty. destruct (N.eqb_spec (Ref.pointer ro) 0); [done|].
    cbn [negb]. unfold Ref_ctor, put_ref.
    erewrite bind_Ret by reflexivity.
    erewrite bind_Ret by (eapply wr_pointer_live; simpl; apply lookup_insert_eq).
    erewrite bind_Ret by (eapply wr_next_live; simpl; apply lookup_insert_eq).
    erewrite bind_Ret
      by (eapply rd_last_live; simpl; by rewrite !lookup_insert_ne).
    unfold copied.
    destruct (N.eqb_spec (Ref.last ro) 0) as [E|E]; cbn [when negb].
    + erewrite (bind_Ret (ret tt)) by reflexivity.
      erewrite bind_Ret; last first.
      { eapply wr_last_alter. simpl. rewrite !lookup_insert_ne by done. eauto. }
      unfold ret. f_equal. apply state_eq; simpl; try done.
      by rewrite !insert_insert_eq, E.
    + assert (Hl : res ≠ Ref.last ro).
      { intros ->. destruct (Hpred E) as [? ?]. congruence. }
      erewrite (bind_Ret (bind _ _)); last first.
      { erewrite bind_Ret
          by (eapply rd_last_live; simpl; by rewrite !lookup_insert_ne).
        erewrite bind_Ret
          by (eapply wr_last_live; simpl; apply lookup_insert_eq).
        erewrite bind_Ret
          by (eapply rd_last_live; simpl; apply lookup_insert_eq).
        eapply wr_next_alter. simpl.
        rewrite !lookup_insert_ne by done. auto. }
      erewrite bind_Ret; last first.
      { eapply wr_last_alter. simpl.
        rewrite lookup_alter_is_Some, !lookup_insert_ne by done. eauto. }
      unfold ret. f_equal. apply state_eq; simpl; try done.
      by rewrite !insert_insert_eq.
  - by apply Ref_copy_run.
  - simpl. unfold copied. rewrite lookup_alter_ne by done.
    destruct (N.eqb_spec (Ref.last ro) 0) as [E|E]; [apply lookup_insert_eq|].
    rewrite lookup_alter_ne; [apply lookup_insert_eq|].
    intros Hl. destruct (Hpred E) as [? ?]. congruence.
Qed.

(** ** Owners *)

Lemma bound_lookup_this this p t (m : gmap N Ref.t) :
  is_Some (bound this p t m !! this).
Proof.
  unfold bound. destruct (t =? 0).
  - rewrite lookup_insert_eq. eauto.
  - rewrite lookup_alter_is_Some, lookup_insert_eq. eauto.
Qed.

(** The destructor of an owner of a live object whose head, if any, is
    live, on any positive budget. *)
Lemma Single_dtor_run fuel s this o x :
  singles s !! this = Some o →
  Single.pointer o ≠ 0 → heap s !! Single.pointer o = Some x →
  (Single.top o ≠ 0 → is_Some (refs s !! Single.top o)) →
  Single_dtor (S fuel) this s =
    Ret tt (mkState (delete (Single.pointer o) (heap s))
                    (delete this (singles s))
                    (if Single.top o =? 0 then refs s
                     else <[Single.top o := Ref.mk 0 0 0]> (refs s))).
Proof.
  intros H Hp Hx Ht.
  destruct (N.eqb_spec (Single.top o) 0) as [E|E].
  - unfold Single_dtor.
    erewrite bind_Ret by (by eapply rd_Spointer_live).
    erewrite bind_Ret by (by eapply delete_obj_live).
    erewrite bind_Ret by (by eapply rd_top_live).
    rewrite E. cbn [N.eqb negb when].
    by erewrite (bind_Ret (ret tt)) by reflexivity.
  - destruct (Ht E) as [r Hr].
    by eapply Single_dtor_head_only.
Qed.

(** X6: take a live [Ref], not at the null address, whose non-null
    neighbours are live, and a live owner of a live object whose head, if
    it has one, is a live [Ref].  Assigning the owner to the [Ref] and
    then destroying the owner, on any positive budget, returns and leaves
    the [Ref] invalid: it holds three nulls, converts to [false] and throws
    on dereference; the object and the owner are gone. *)
Theorem bound_ref_invalid_after_owner_dies fuel s this single r o x :
  refs s !! this = Some r →
  neighbours_live r (refs s) →
  singles s !! single = Some o →
  (Single.top o ≠ 0 → is_Some (refs s !! Single.top o)) →
  Single.pointer o ≠ 0 →
  heap s !! Single.pointer o = Some x →
  this ≠ 0 →
  ∃ s', (Ref_assign_Single this single ;; Single_dtor (S fuel) single) s
          = Ret tt s' ∧
        refs s' !! this = Some (Ref.mk 0 0 0) ∧
        heap s' !! Single.pointer o = None ∧
        singles s' !! single = None ∧
        Ref_bool this s' = Ret false s' ∧
        Ref_star this s' = Throw InvalidRefException s' ∧
        Ref_arrow this s' = Throw InvalidRefException s'.
Proof.
  intros H Hnb Ho Ht Hp Hx Hne. eexists. split.
  { erewrite bind_Ret by (by eapply Ref_assign_Single_run).
    eapply (Single_dtor_run _ _ _ (Single.mk (Single.pointer o) this)).
    - simpl. apply lookup_insert_eq.
    - done.
    - done.
    - intros _. simpl. apply bound_lookup_this. }
  simpl. destruct (N.eqb_spec this 0); [done|].
  assert (Hfin : ∀ m : gmap N Ref.t,
    <[this := Ref.mk 0 0 0]> m !! this = Some (Ref.mk 0 0 0))
    by (intros; apply lookup_insert_eq).
  split_and!.
  - apply Hfin.
  - apply lookup_delete_eq.
  - apply lookup_delete_eq.
  - by erewrite Ref_bool_live by apply Hfin.
  - by erewrite Ref_star_live by apply Hfin.
  - by erewrite Ref_arrow_live by apply Hfin.
Qed.

(** X7: making an owner of a new object at fresh addresses and destroying
    it again, on any budget, leaves the store as it was. *)
Theorem my_then_dtor_restores fuel s this p (x : Obj) :
  heap s !! p = None →
  singles s !! this = None →
  p ≠ 0 →
  (my this p x ;; Single_dtor fuel this) s = Ret tt s.
Proof.
  intros Hp Hthis Hne.
  unfold my, new_obj, Single_ctor, put_single.
  erewrite (bind_Ret (bind _ _)) by reflexivity.
  unfold Single_dtor.
  erewrite bind_Ret by (eapply rd_Spointer_live; simpl; apply lookup_insert_eq).
  erewrite bind_Ret
    by (eapply delete_obj_live; [done | simpl; apply lookup_insert_eq]).
  erewrite bind_Ret by (eapply rd_top_live; simpl; apply lookup_insert_eq).
  cbn [Single.top N.eqb negb when].
  erewrite (bind_Ret (ret tt)) by reflexivity.
  unfold free_single. f_equal. apply state_eq; simpl; try done.
  - by apply delete_insert_id.
  - by apply delete_insert_id.
Qed.

(** X8: destroying a live owner of a live object whose head, if any, is
    live returns on any positive budget; it frees that object and no other,
    removes that owner and no other, leaves the head with three nulls and
    leaves every other [Ref] as it was. *)
Theorem Single_dtor_effect fuel s this o x :
  singles s !! this = Some o →
  Single.pointer o ≠ 0 → heap s !! Single.pointer o = Some x →
  (Single.top o ≠ 0 → is_Some (refs s !! Single.top o)) →
  ∃ s', Single_dtor (S fuel) this s = Ret tt s' ∧
        heap s' !! Single.pointer o = None ∧
        (∀ q, q ≠ Single.pointer o → heap s' !! q = heap s !! q) ∧
        singles s' !! this = None ∧
        (∀ a, a ≠ this → singles s' !! a = singles s !! a) ∧
        (Single.top o ≠ 0 →
         refs s' !! Single.top o = Some (Ref.mk 0 0 0)) ∧
        (∀ a, a ≠ Single.top o → refs s' !! a = refs s !! a).
Proof.
  intros H Hp Hx Ht. eexists. split; [by eapply Single_dtor_run|].
  simpl. split_and!.
  - apply lookup_delete_eq.
  - intros q Hq. by rewrite lookup_delete_ne.
  - apply lookup_delete_eq.
  - intros a Ha. by rewrite lookup_delete_ne.
  - intros E. destruct (N.eqb_spec (Single.top o) 0); [done|].
    apply lookup_insert_eq.
  - intros a Ha. destruct (Single.top o =? 0); [done|].
    by rewrite lookup_insert_ne.
Qed.

(** X9: after the move constructor has built the [Single] at [this] from
    the live [Single] at [other], [operator->] of the new owner returns the
    source's old [pointer] and [operator->] of the source returns null,
    neither throwing; a live [Ref] holding that pointer, if it is not null,
    compares equal to the new owner and unequal to the source. *)
Theorem Single_move_answers s this other o a r :
  singles s !! other = Some o →
  this ≠ other →
  refs s !! a = Some r →
  Ref.pointer r = Single.pointer o →
  Single.pointer o ≠ 0 →
  ∃ s', Single_move this other s = Ret tt s' ∧
        Single_arrow this s' = Ret (Single.pointer o) s' ∧
        Single_arrow other s' = Ret 0 s' ∧
        Ref_eq_Single a this s' = Ret true s' ∧
        Single_eq_Ref this a s' = Ret true s' ∧
        Ref_eq_Single a other s' = Ret false s' ∧
        Single_eq this other s' = Ret false s'.
Proof.
  intros Ho Hne Hr Hpr Hp. eexists. split.
  { unfold Single_move, put_single.
    erewrite bind_Ret by (by eapply rd_Spointer_live).
    erewrite bind_Ret by (by eapply rd_top_live).
    erewrite bind_Ret by reflexivity.
    erewrite bind_Ret
      by (eapply wr_Spointer_live; simpl; by rewrite lookup_insert_ne).
    erewrite wr_top_live by (simpl; apply lookup_insert_eq).
    reflexivity. }
  set (s' := set_singles _ _).
  assert (Hthis : singles s' !! this =
                  Some (Single.mk (Single.pointer o) (Single.top o))).
  { simpl. rewrite !lookup_insert_ne by done. apply lookup_insert_eq. }
  assert (Hother : singles s' !! other = Some (Single.mk 0 0)).
  { simpl. apply lookup_insert_eq. }
  assert (Hr' : refs s' !! a = Some r) by done.
  assert (Hnp : (Single.pointer o =? 0) = false) by by apply N.eqb_neq.
  unfold Single_arrow, Ref_eq_Single, Single_eq_Ref, Single_eq.
  split_and!.
  - by rewrite (rd_Spointer_live _ _ _ Hthis).
  - by rewrite (rd_Spointer_live _ _ _ Hother).
  - erewrite bind_Ret by (by eapply rd_pointer_live).
    erewrite bind_Ret by (by eapply rd_Spointer_live).
    unfold ret. simpl. by rewrite Hpr, N.eqb_refl.
  - erewrite bind_Ret by (by eapply rd_Spointer_live).
    erewrite bind_Ret by (by eapply rd_pointer_live).
    unfold ret. simpl. by rewrite Hpr, N.eqb_refl.
  - erewrite bind_Ret by (by eapply rd_pointer_live).
    erewrite bind_Ret by (by eapply rd_Spointer_live).
    unfold ret. simpl. by rewrite Hpr, Hnp.
  - erewrite bind_Ret by (by eapply rd_Spointer_live).
    erewrite bind_Ret by (by eapply rd_Spointer_live).
    unfold ret. simpl. by rewrite Hnp.
Qed.

(** X10: take a live [Ref] whose non-null neighbours are live and a live
    owner whose head, if it has one, is a live [Ref].  Right after the
    owner has been assigned to the [Ref], the two compare equal in both
    directions, and dereferencing the [Ref] gives what [operator->] of the
    owner gives when the owner holds an object and throws when it holds
    none. *)
Theorem bound_ref_equals_owner s this single r o :
  refs s !! this = Some r →
  neighbours_live r (refs s) →
  singles s !! single = Some o →
  (Single.top o ≠ 0 → is_Some (refs s !! Single.top o)) →
  ∃ s', Ref_assign_Single this single s = Ret this s' ∧
        Ref_eq_Single this single s' = Ret true s' ∧
        Single_eq_Ref single this s' = Ret true s' ∧
        Single_arrow single s' = Ret (Single.pointer o) s' ∧
        Ref_arrow this s' =
          (if Single.pointer o =? 0 then Throw InvalidRefException s'
           else Ret (Single.pointer o) s').
Proof.
  intros H Hnb Ho Ht. eexists. split.
  { by eapply Ref_assign_Single_run. }
  set (s' := mkState _ _ _).
  assert (Hs : singles s' !! single =
               Some (Single.mk (Single.pointer o) this))
    by apply lookup_insert_eq.
  assert (∃ y, refs s' !! this = Some y ∧
               Ref.pointer y = Single.pointer o) as (y & Hy & Hpy).
  { simpl. unfold bound. destruct (Single.top o =? 0).
    - rewrite lookup_insert_eq. by eexists.
    - rewrite lookup_alter_at, lookup_insert_eq. case_decide; by eexists. }
  unfold Ref_eq_Single, Single_eq_Ref, Single_arrow.
  split_and!.
  - erewrite bind_Ret by (by eapply rd_pointer_live).
    erewrite bind_Ret by (by eapply rd_Spointer_live).
    unfold ret. simpl. by rewrite Hpy, N.eqb_refl.
  - erewrite bind_Ret by (by eapply rd_Spointer_live).
    erewrite bind_Ret by (by eapply rd_pointer_live).
    unfold ret. simpl. by rewrite Hpy, N.eqb_refl.
  - by rewrite (rd_Spointer_live _ _ _ Hs).
  - rewrite (Ref_arrow_live _ _ _ Hy). by rewrite Hpy.
Qed.

(** ** What never throws *)

Create HintDb nothrow.
Local Hint Resolve nothrow_ret nothrow_when nothrow_get_ref nothrow_put_ref
  nothrow_rd_pointer nothrow_rd_last nothrow_rd_next
  nothrow_wr_pointer nothrow_wr_last nothrow_wr_next nothrow_Ref_ctor
  : nothrow.
Local Hint Extern 2 (nothrow (bind _ _)) =>
  apply nothrow_bind; [|intros ?] : nothrow.

Lemma nothrow_get_single a : nothrow (Obj:=Obj) (get_single a).
Proof. intros s e s'. unfold get_single. by destruct (singles s !! a). Qed.

Lemma nothrow_put_single a o : nothrow (Obj:=Obj) (put_single a o).
Proof. by intros s e s'. Qed.

Local Hint Resolve nothrow_get_single nothrow_put_single : nothrow.

Lemma nothrow_rd_Spointer a : nothrow (Obj:=Obj) (rd_Spointer a).
Proof. unfold rd_Spointer. auto with nothrow. Qed.
Lemma nothrow_rd_top a : nothrow (Obj:=Obj) (rd_top a).
Proof. unfold rd_top. auto with nothrow. Qed.
Lemma nothrow_wr_Spointer a v : nothrow (Obj:=Obj) (wr_Spointer a v).
Proof. unfold wr_Spointer. auto with nothrow. Qed.
Lemma nothrow_wr_top a v : nothrow (Obj:=Obj) (wr_top a v).
Proof. unfold wr_top. auto with nothrow. Qed.

Lemma nothrow_delete_obj p : nothrow (Obj:=Obj) (delete_obj p).
Proof.
  intros s e s'. unfold delete_obj.
  destruct (p =? 0); [done|]. by destruct (heap s !! p).
Qed.

Lemma nothrow_free_ref a : nothrow (Obj:=Obj) (free_ref a).
Proof. by intros s e s'. Qed.

Lemma nothrow_free_single a : nothrow (Obj:=Obj) (free_single a).
Proof. by intros s e s'. Qed.

Local Hint Resolve nothrow_rd_Spointer nothrow_rd_top nothrow_wr_Spointer
  nothrow_wr_top nothrow_delete_obj nothrow_free_ref nothrow_free_single
  : nothrow.

Lemma nothrow_nullify this : nothrow (Obj:=Obj) (nullify this).
Proof. unfold nullify. auto with nothrow. Qed.

Local Hint Resolve nothrow_nullify : nothrow.

Lemma nothrow_invalidate fuel this : nothrow (Obj:=Obj) (invalidate fuel this).
Proof.
  revert this. induction fuel as [|fuel IH]; intros this; simpl.
  - by intros s e s'.
  - auto 10 with nothrow.
Qed.

Lemma nothrow_delink this : nothrow (Obj:=Obj) (delink this).
Proof. unfold delink. auto 10 with nothrow. Qed.

Local Hint Resolve nothrow_invalidate nothrow_delink : nothrow.

Lemma nothrow_Ref_assign this other : nothrow (Obj:=Obj) (Ref_assign this other).
Proof. unfold Ref_assign. auto 20 with nothrow. Qed.

Lemma nothrow_Ref_assign_Single this single :
  nothrow (Obj:=Obj) (Ref_assign_Single this single).
Proof. unfold Ref_assign_Single. auto 20 with nothrow. Qed.

Local Hint Resolve nothrow_Ref_assign nothrow_Ref_assign_Single : nothrow.

(** X11: assignment to a [Ref] from a [Ref] and from a [Single], its two
    converting constructors, its destructor and [operator bool], the move
    constructor and, on every budget, the destructor of [Single], and the
    four comparisons throw on no store at all. *)
Theorem handle_operations_never_throw fuel this other :
  nothrow (Obj:=Obj) (Ref_assign this other) ∧
  nothrow (Obj:=Obj) (Ref_assign_Single this other) ∧
  nothrow (Obj:=Obj) (Ref_copy this other) ∧
  nothrow (Obj:=Obj) (Ref_of_Single this other) ∧
  nothrow (Obj:=Obj) (Ref_dtor this) ∧
  nothrow (Obj:=Obj) (Ref_bool this) ∧
  nothrow (Obj:=Obj) (Single_move this other) ∧
  nothrow (Obj:=Obj) (Single_dtor fuel this) ∧
  nothrow (Obj:=Obj) (Ref_eq this other) ∧
  nothrow (Obj:=Obj) (Ref_eq_Single this other) ∧
  nothrow (Obj:=Obj) (Single_eq this other) ∧
  nothrow (Obj:=Obj) (Single_eq_Ref this other).
Proof.
  unfold Ref_copy, Ref_of_Single, Ref_dtor, Ref_bool, Single_move,
    Single_dtor, Ref_eq, Ref_eq_Single, Single_eq, Single_eq_Ref.
  split_and!; auto 20 with nothrow.
Qed.

(** ** The demonstration program *)

(** X12: run from a store in which the three addresses it uses are free
    (and the integer and the global are not put at the null address), the
    demonstration program returns on every positive budget, having printed
    the owned integer, the same integer read through the reference, and
    then that the reference is null; the store is as it was. *)
Theorem program_prints_null fuel s myIntRef ownedInt p (twenty : Obj) :
  heap s !! p = None →
  singles s !! ownedInt = None →
  refs s !! myIntRef = None →
  p ≠ 0 →
  myIntRef ≠ 0 →
  program (S fuel) myIntRef ownedInt p twenty s =
    Ret [OwnedInt twenty; Reference twenty; IsNull] s.
Proof.
  intros Hp Howner Hg Hp0 Hg0.
  assert (Hnp : (p =? 0) = false) by by apply N.eqb_neq.
  unfold program, Ref_ctor, put_ref.
  erewrite bind_Ret by reflexivity.
  erewrite (bind_Ret (main _ _ _ _ _)); last first.
  { unfold main.
    erewrite (bind_Ret (test _ _ _ _ _)); last first.
    { unfold test, my, new_obj, Single_ctor, put_single.
      erewrite (bind_Ret (bind _ _)) by reflexivity.
      erewrite bind_Ret
        by (eapply rd_Spointer_live; simpl; apply lookup_insert_eq).
      erewrite bind_Ret
        by (unfold load; simpl; by rewrite lookup_insert_eq).
      erewrite bind_Ret; last first.
      { eapply (Ref_assign_Single_run _ _ _ (Ref.mk 0 0 0) (Single.mk p 0)).
        - simpl. apply lookup_insert_eq.
        - apply neighbours_live_empty_record.
        - simpl. apply lookup_insert_eq.
        - done. }
      unfold bound, unlinked; simpl.
      erewrite bind_Ret; last first.
      { erewrite Ref_star_live by (simpl; apply lookup_insert_eq).
        simpl. by rewrite Hnp. }
      erewrite bind_Ret
        by (unfold load; simpl; by rewrite lookup_insert_eq).
      erewrite bind_Ret; last first.
      { eapply (Single_dtor_run _ _ _ (Single.mk p myIntRef)).
        - simpl. apply lookup_insert_eq.
        - done.
        - simpl. apply lookup_insert_eq.
        - intros _. simpl. rewrite lookup_insert_eq. eauto. }
      reflexivity. }
    simpl. destruct (N.eqb_spec myIntRef 0); [done|].
    erewrite bind_Ret
      by (eapply Ref_bool_live; simpl; apply lookup_insert_eq).
    reflexivity. }
  erewrite (bind_Ret (Ref_dtor _)); last first.
  { unfold Ref_dtor.
    erewrite bind_Ret; last first.
    { eapply (delink_live _ _ (Ref.mk 0 0 0)).
      - simpl. apply lookup_insert_eq.
      - apply neighbours_live_empty_record. }
    reflexivity. }
  unfold ret. f_equal. apply state_eq; unfold unlinked; simpl.
  - by apply delete_insert_id.
  - rewrite insert_insert_eq. by apply delete_insert_id.
  - rewrite !insert_insert_eq. by apply delete_insert_id.
Qed.

End Binding.

(** * The statements of the last part at concrete stores *)

Section MoreInstances.

Import Demo.

Lemma chain_of_two_neighbours_of_1 :
  neighbours_live (Ref.mk 1000 2 0) (refs chain_of_two).
Proof. split; [done | intros _; eexists; reflexivity]. Defined.

Lemma chain_of_two_neighbours_of_2 :
  neighbours_live (Ref.mk 1000 0 1) (refs chain_of_two).
Proof. split; [intros _; eexists; reflexivity | done]. Defined.

Lemma chain_of_two_head_live :
  Single.top (Single.mk 1000 2) ≠ 0 →
  is_Some (refs chain_of_two !! Single.top (Single.mk 1000 2)).
Proof. intros _. eexists. reflexivity. Defined.

(** The tail of the chain 2, 1 is assigned its owner again. *)
Lemma Ref_assign_Single_binds_at_head_witness :
  ∃ s', Ref_assign_Single 1 100 chain_of_two = Ret 1 s' ∧
        refs s' !! 1 = Some (Ref.mk 1000 0 2) ∧
        singles s' !! 100 = Some (Single.mk 1000 1).
Proof.
  destruct (Ref_assign_Single_binds_at_head chain_of_two 1 100
              (Ref.mk 1000 2 0) (Single.mk 1000 2))
    as (s' & Hrun & Hr & Hs & _).
  - reflexivity.
  - exact chain_of_two_neighbours_of_1.
  - reflexivity.
  - exact chain_of_two_head_live.
  - discriminate.
  - exists s'. split_and!; assumption.
Defined.

(** The head of the chain 2, 1 is assigned its owner again. *)
Lemma Ref_assign_Single_again_self_links_witness :
  ∃ s', Ref_assign_Single 2 100 chain_of_two = Ret 2 s' ∧
        refs s' !! 2 = Some (Ref.mk 1000 2 2).
Proof.
  destruct (Ref_assign_Single_again_self_links chain_of_two 2 100
              (Ref.mk 1000 0 1) (Single.mk 1000 2))
    as (s' & Hrun & Hr & _).
  - reflexivity.
  - exact chain_of_two_neighbours_of_2.
  - reflexivity.
  - reflexivity.
  - discriminate.
  - exists s'. split; assumption.
Defined.

Lemma chain_of_two_pred_of_1_live :
  Ref.last (Ref.mk 1000 2 0) ≠ 0 →
  is_Some (refs chain_of_two !! Ref.last (Ref.mk 1000 2 0)).
Proof. intros _. eexists. reflexivity. Defined.

(** The tail of the chain 2, 1 is copied into a new [Ref] at 3. *)
Lemma Ref_copy_splices_before_source_witness :
  ∃ s', Ref_copy 3 1 chain_of_two = Ret tt s' ∧
        refs s' !! 3 = Some (Ref.mk 1000 2 1).
Proof.
  destruct (Ref_copy_splices_before_source chain_of_two 3 1 (Ref.mk 1000 2 0))
    as (s' & Hrun & Hr & _).
  - reflexivity.
  - reflexivity.
  - exact chain_of_two_pred_of_1_live.
  - exists s'. split; assumption.
Defined.

(** The same copy is destroyed again. *)
Lemma Ref_copy_then_dtor_restores_witness :
  (Ref_copy 3 1 ;; Ref_dtor 3) chain_of_two = Ret tt chain_of_two.
Proof.
  apply (Ref_copy_then_dtor_restores chain_of_two 3 1 (Ref.mk 1000 2 0)).
  - reflexivity.
  - reflexivity.
  - discriminate.
  - intros _. exists (Ref.mk 1000 0 1). split; reflexivity.
Defined.

(** The tail of the chain 2, 1, which observes a [Base], is cast to
    [Base]. *)
Lemma RefCast_success_is_copy_witness :
  ∃ s', RefCast is_a Base 3 1 chain_of_two = Ret 3 s' ∧
        Ref_copy 3 1 chain_of_two = Ret tt s'.
Proof.
  destruct (RefCast_success_is_copy is_a Base chain_of_two 3 1
              (Ref.mk 1000 2 0) (Base, 20%Z))
    as (s' & Hcast & Hcopy & _).
  - reflexivity.
  - reflexivity.
  - exact chain_of_two_pred_of_1_live.
  - discriminate.
  - reflexivity.
  - reflexivity.
  - exists s'. split; assumption.
Defined.

(** The tail of the chain 2, 1 is assigned its owner again and the owner
    dies. *)
Lemma bound_ref_invalid_after_owner_dies_witness :
  ∃ s', (Ref_assign_Single 1 100 ;; Single_dtor 1 100) chain_of_two
          = Ret tt s' ∧
        Ref_bool 1 s' = Ret false s'.
Proof.
  destruct (bound_ref_invalid_after_owner_dies 0 chain_of_two 1 100
              (Ref.mk 1000 2 0) (Single.mk 1000 2) (Base, 20%Z))
    as (s' & Hrun & _ & _ & _ & Hb & _).
  - reflexivity.
  - exact chain_of_two_neighbours_of_1.
  - reflexivity.
  - exact chain_of_two_head_live.
  - discriminate.
  - reflexivity.
  - discriminate.
  - exists s'. split; assumption.
Defined.

(** A second owner is made at 101, of a new object at 1001, and dies. *)
Lemma my_then_dtor_restores_witness :
  (my 101 1001 (Derived, 7%Z) ;; Single_dtor 0 101) chain_of_two
    = Ret tt chain_of_two.
Proof.
  apply (my_then_dtor_restores 0 chain_of_two 101 1001 (Derived, 7%Z)).
  - reflexivity.
  - reflexivity.
  - discriminate.
Defined.

(** The owner of the chain 2, 1 dies. *)
Lemma Single_dtor_effect_witness :
  ∃ s', Single_dtor 1 100 chain_of_two = Ret tt s' ∧
        refs s' !! 2 = Some (Ref.mk 0 0 0) ∧
        refs s' !! 1 = Some (Ref.mk 1000 2 0).
Proof.
  destruct (Single_dtor_effect 0 chain_of_two 100 (Single.mk 1000 2)
              (Base, 20%Z))
    as (s' & Hrun & _ & _ & _ & _ & Hhead & Hrest).
  - reflexivity.
  - discriminate.
  - reflexivity.
  - exact chain_of_two_head_live.
  - exists s'. split_and!.
    + assumption.
    + apply Hhead. discriminate.
    + rewrite (Hrest 1); [reflexivity | discriminate].
Defined.

(** The owner of the chain 2, 1 is moved to 101. *)
Lemma Single_move_answers_witness :
  ∃ s', Single_move 101 100 chain_of_two = Ret tt s' ∧
        Single_arrow 101 s' = Ret 1000 s' ∧
        Single_arrow 100 s' = Ret 0 s' ∧
        Ref_eq_Single 1 101 s' = Ret true s'.
Proof.
  destruct (Single_move_answers chain_of_two 101 100 (Single.mk 1000 2)
              1 (Ref.mk 1000 2 0))
    as (s' & Hrun & Hnew & Hold & Heq & _).
  - reflexivity.
  - discriminate.
  - reflexivity.
  - reflexivity.
  - discriminate.
  - exists s'. split_and!; assumption.
Defined.

(** The tail of the chain 2, 1 is assigned its owner again. *)
Lemma bound_ref_equals_owner_witness :
  ∃ s', Ref_assign_Single 1 100 chain_of_two = Ret 1 s' ∧
        Ref_eq_Single 1 100 s' = Ret true s' ∧
        Single_eq_Ref 100 1 s' = Ret true s'.
Proof.
  destruct (bound_ref_equals_owner chain_of_two 1 100
              (Ref.mk 1000 2 0) (Single.mk 1000 2))
    as (s' & Hrun & H1 & H2 & _).
  - reflexivity.
  - exact chain_of_two_neighbours_of_1.
  - reflexivity.
  - exact chain_of_two_head_live.
  - exists s'. split_and!; assumption.
Defined.

(** The demonstration program as it is written: the integer is 20. *)
Lemma program_prints_null_witness :
  program 1 1 100 1000 (Base, 20%Z) empty_state =
    Ret [OwnedInt (Base, 20%Z); Reference (Base, 20%Z); IsNull] empty_state.
Proof.
  apply (program_prints_null 0 empty_state 1 100 1000 (Base, 20%Z)).
  - reflexivity.
  - reflexivity.
  - reflexivity.
  - discriminate.
  - discriminate.
Defined.

End MoreInstances.

(** * Factory functions and moved owners *)

Section Composition.

Context {ty Obj : Type}.
Implicit Types (s : state Obj) (r ro : Ref.t) (o : Single.t).
Implicit Types (a this other single res ref : N).

(** The converting constructor from an owner, at a fresh address. *)
Lemma Ref_of_Single_run s this single o :
  refs s !! this = None →
  singles s !! single = Some o →
  (Single.top o ≠ 0 → is_Some (refs s !! Single.top o)) →
  Ref_of_Single this single s =
    Ret tt
      (mkState (heap s)
               (<[single := Single.mk (Single.pointer o) this]> (singles s))
               (bound this (Single.pointer o) (Single.top o) (refs s))).
Proof.
  intros Hthis Ho Ht.
  unfold Ref_of_Single, Ref_ctor, put_ref.
  erewrite bind_Ret by reflexivity.
  erewrite (bind_Ret (Ref_assign_Single _ _)); last first.
  { eapply (Ref_assign_Single_run _ _ _ (Ref.mk 0 0 0)).
    - simpl. apply lookup_insert_eq.
    - apply neighbours_live_empty_record.
    - done.
    - intros E. simpl. destruct (Ht E) as [x Hx].
      rewrite lookup_insert_ne by congruence. eauto. }
  unfold ret. f_equal. apply state_eq; simpl; try done.
  unfold bound, unlinked; simpl.
  by rewrite insert_insert_eq.
Qed.

(** X13: what [refer] returns, constructed in place at a fresh address,
    compares equal to what it was made from.  Made from a live [Ref],
    empty or not, whose predecessor, if it has one, is live, the result
    and the source are equal in both directions; made from a live owner
    whose head, if it has one, is a live [Ref], the result equals the owner
    in both directions and is the owner's new head. *)
Theorem refer_result_equals_source s res :
  refs s !! res = None →
  (∀ ref ro,
     refs s !! ref = Some ro →
     (Ref.last ro ≠ 0 → is_Some (refs s !! Ref.last ro)) →
     ∃ s', refer_Ref res ref s = Ret res s' ∧
           Ref_eq res ref s' = Ret true s' ∧
           Ref_eq ref res s' = Ret true s') ∧
  (∀ single o,
     singles s !! single = Some o →
     (Single.top o ≠ 0 → is_Some (refs s !! Single.top o)) →
     ∃ s', refer_Single res single s = Ret res s' ∧
           Ref_eq_Single res single s' = Ret true s' ∧
           Single_eq_Ref single res s' = Ret true s' ∧
           singles s' !! single = Some (Single.mk (Single.pointer o) res)).
Proof.
  intros Hres. split.
  - intros ref ro Href Hpred.
    assert (Hne : ref ≠ res) by congruence.
    eexists. split.
    { unfold refer_Ref. by erewrite bind_Ret by (by eapply Ref_copy_run). }
    set (s' := set_refs _ _).
    assert (Hr : refs s' !! res =
                 Some (Ref.mk (Ref.pointer ro) (Ref.last ro) ref)).
    { simpl. unfold copied. rewrite lookup_alter_ne by done.
      destruct (N.eqb_spec (Ref.last ro) 0) as [E|E];
        [apply lookup_insert_eq|].
      rewrite lookup_alter_ne; [apply lookup_insert_eq|].
      intros Hl. destruct (Hpred E) as [? ?]. congruence. }
    assert (∃ y, refs s' !! ref = Some y ∧
                 Ref.pointer y = Ref.pointer ro) as (y & Hy & Hpy).
    { simpl. unfold copied. rewrite lookup_alter_eq.
      destruct (Ref.last ro =? 0);
        rewrite ?lookup_alter_at, lookup_insert_ne, Href by done;
        try case_decide; by eexists. }
    unfold Ref_eq. split.
    + erewrite bind_Ret by (by eapply rd_pointer_live).
      erewrite bind_Ret by (by eapply rd_pointer_live).
      unfold ret. simpl. by rewrite Hpy, N.eqb_refl.
    + erewrite bind_Ret by (by eapply rd_pointer_live).
      erewrite bind_Ret by (by eapply rd_pointer_live).
      unfold ret. simpl. by rewrite Hpy, N.eqb_refl.
  - intros single o Ho Ht. eexists. split.
    { unfold refer_Single.
      by erewrite bind_Ret by (by eapply Ref_of_Single_run). }
    set (s' := mkState _ _ _).
    assert (Hs : singles s' !! single =
                 Some (Single.mk (Single.pointer o) res))
      by apply lookup_insert_eq.
    assert (∃ y, refs s' !! res = Some y ∧
                 Ref.pointer y = Single.pointer o) as (y & Hy & Hpy).
    { simpl. unfold bound. destruct (Single.top o =? 0).
      - rewrite lookup_insert_eq. by eexists.
      - rewrite lookup_alter_at, lookup_insert_eq. case_decide; by eexists. }
    unfold Ref_eq_Single, Single_eq_Ref. split_and!; [| |done].
    + erewrite bind_Ret by (by eapply rd_pointer_live).
      erewrite bind_Ret by (by eapply rd_Spointer_live).
      unfold ret. simpl. by rewrite Hpy, N.eqb_refl.
    + erewrite bind_Ret by (by eapply rd_Spointer_live).
      erewrite bind_Ret by (by eapply rd_pointer_live).
      unfold ret. simpl. by rewrite Hpy, N.eqb_refl.
Qed.

(** The move constructor from a live owner to another address. *)
Lemma Single_move_run s this other o :
  singles s !! other = Some o →
  this ≠ other →
  Single_move this other s =
    Ret tt (set_singles
              (λ m, <[other := Single.mk 0 0]>
                      (<[this := Single.mk (Single.pointer o) (Single.top o)]> m))
              s).
Proof.
  intros Ho Hne. unfold Single_move, put_single.
  erewrite bind_Ret by (by eapply rd_Spointer_live).
  erewrite bind_Ret by (by eapply rd_top_live).
  erewrite bind_Ret by reflexivity.
  erewrite bind_Ret
    by (eapply wr_Spointer_live; simpl; by rewrite lookup_insert_ne).
  erewrite wr_top_live by (simpl; apply lookup_insert_eq).
  f_equal. apply state_eq; simpl; try done.
  by rewrite insert_insert_eq.
Qed.

(** X14: take a live owner of a live object whose head, if it has one,
    is a live [Ref], and move it to another address.  Destroying the new
    owner, on any positive budget, then frees the object and clears the
    chain head the source had; the emptied source stays live with two
    nulls and every other [Ref] is untouched. *)
Theorem moved_owner_dtor_clears_head fuel s this other o (x : Obj) :
  singles s !! other = Some o →
  this ≠ other →
  Single.pointer o ≠ 0 →
  heap s !! Single.pointer o = Some x →
  (Single.top o ≠ 0 → is_Some (refs s !! Single.top o)) →
  ∃ s', (Single_move this other ;; Single_dtor (S fuel) this) s = Ret tt s' ∧
        heap s' !! Single.pointer o = None ∧
        singles s' !! this = None ∧
        singles s' !! other = Some (Single.mk 0 0) ∧
        (Single.top o ≠ 0 →
         refs s' !! Single.top o = Some (Ref.mk 0 0 0)) ∧
        (∀ a, a ≠ Single.top o → refs s' !! a = refs s !! a).
Proof.
  intros Ho Hne Hp Hx Ht. eexists. split.
  { erewrite bind_Ret by (by eapply Single_move_run).
    eapply (Single_dtor_run _ _ _
              (Single.mk (Single.pointer o) (Single.top o))); try done.
    simpl. rewrite lookup_insert_ne by done. apply lookup_insert_eq. }
  simpl. split_and!.
  - apply lookup_delete_eq.
  - apply lookup_delete_eq.
  - rewrite lookup_delete_ne by done. apply lookup_insert_eq.
  - intros E. destruct (N.eqb_spec (Single.top o) 0); [done|].
    apply lookup_insert_eq.
  - intros a Ha. destruct (Single.top o =? 0); [done|].
    by rewrite lookup_insert_ne.
Qed.

End Composition.

Section CompositionInstances.

Import Demo.

(** [refer] applied to the tail of the chain 2, 1 and to its owner. *)
Lemma refer_result_equals_source_witness :
  (∃ s', refer_Ref 3 1 chain_of_two = Ret 3 s' ∧
         Ref_eq 3 1 s' = Ret true s') ∧
  (∃ s', refer_Single 3 100 chain_of_two = Ret 3 s' ∧
         Ref_eq_Single 3 100 s' = Ret true s').
Proof.
  destruct (refer_result_equals_source chain_of_two 3) as [Href Hsingle].
  - reflexivity.
  - split.
    + destruct (Href 1 (Ref.mk 1000 2 0)) as (s' & Hrun & Heq & _).
      * reflexivity.
      * intros _. eexists. reflexivity.
      * exists s'. split; assumption.
    + destruct (Hsingle 100 (Single.mk 1000 2)) as (s' & Hrun & Heq & _).
      * reflexivity.
      * intros _. eexists. reflexivity.
      * exists s'. split; assumption.
Defined.

(** The owner of the chain 2, 1 is moved to 101 and the new owner dies. *)
Lemma moved_owner_dtor_clears_head_witness :
  ∃ s', (Single_move 101 100 ;; Single_dtor 1 101) chain_of_two = Ret tt s' ∧
        heap s' !! 1000 = None ∧
        refs s' !! 2 = Some (Ref.mk 0 0 0).
Proof.
  destruct (moved_owner_dtor_clears_head 0 chain_of_two 101 100
              (Single.mk 1000 2) (Base, 20%Z))
    as (s' & Hrun & Hheap & _ & _ & Hhead & _).
  - reflexivity.
  - discriminate.
  - discriminate.
  - reflexivity.
  - intros _. eexists. reflexivity.
  - exists s'. split_and!.
    + assumption.
    + assumption.
    + apply Hhead. discriminate.
Defined.

End CompositionInstances.
